(** * Genetic-algorithm operators on binary chromosomes

    A shallow embedding of the three MEX operators of the repository,

      - [BitflipMutation.c]      (mexFunction, here [Mutate]),
      - [NpointCrossover.c]      (mexFunction, here [Crossover]),
      - [TournamentSelection.c]  (mexFunction and [TourSel], here [Select]),

    and the properties of them that the specification states.

    Conventions of the embedding.

    - C integers are [Z]; the conversions the C code performs silently
      ([int] to [unsigned int], [int] to [size_t], [unsigned int] to [int])
      are written out with [to_uint], [to_size_t] and [to_int].  The loop
      counters and the flat indices that the C code keeps in [int] are
      computed in [Z]: the two agree while the values stay within
      [INT_MAX], and the properties that depend on these values ask for it
      ([m <= INT_MAX], [n <= INT_MAX], [my * n <= INT_MAX],
      [NoSurvivors * n <= INT_MAX]).
    - A Matlab matrix is the flat, column-major array the C code indexes:
      entry (row, col) of an [m]-row matrix sits at index [row + col * m].
    - [rand()] is a stream [rnd : nat -> Z]; the state carries the number of
      draws made so far.  [srand(clock())] only chooses the stream.
    - [RAND_MAX] comes from the C library and is a parameter.
    - Counted [for] loops run their C condition under a trip bound; the
      rejection-sampling [while] loops, which need not end, run on [fuel].
      For the properties about termination the loops are also given on
      fuel alone ([loop_on_fuel], [Mutate_on_fuel], [Select_on_fuel]): no
      trip bound, and no result when the fuel runs out.
    - An access outside its array is kept in the model rather than treated as
      the end of the run: such a store is dropped, such a load yields the
      default (or, for the cut-point array, what [junk] says lies behind it).
      The crossover operator records every store into [Children] and every
      load from [CrossOverPoints], so that the accesses can be inspected.
      What the C program does from such an access on is not defined: for a
      run with one, [Done] says that the loops of the run have ended, not
      that the call returns. *)

From Stdlib Require Import ZArith List Bool Lia QArith.
From Stdlib Require Import Sorting.Sorted Sorting.Permutation.
Import ListNotations.
Local Open Scope Z_scope.

(* ================================================================== *)
(** * Part I: the programs                                             *)
(* ================================================================== *)

(** ** Machine integers *)

Definition UINT_MOD : Z := 2 ^ 32.
Definition SIZE_MOD : Z := 2 ^ 64.
Definition INT_MAX : Z := 2 ^ 31 - 1.

(** Conversion to [unsigned int]. *)
Definition to_uint (z : Z) : Z := z mod UINT_MOD.

(** Conversion to [size_t] (64 bits: the operators are built as mexw64). *)
Definition to_size_t (z : Z) : Z := z mod SIZE_MOD.

(** Conversion to [int], wrapping. *)
Definition to_int (z : Z) : Z :=
  let u := z mod UINT_MOD in
  if u <=? INT_MAX then u else u - UINT_MOD.

(** ** Flat arrays *)

Definition in_bounds {A : Type} (l : list A) (i : Z) : bool :=
  (0 <=? i) && (i <? Z.of_nat (length l)).

Fixpoint update {A : Type} (l : list A) (i : nat) (v : A) : list A :=
  match l, i with
  | [], _ => []
  | _ :: t, O => v :: t
  | h :: t, S j => h :: update t j v
  end.

(** [a[i]] as an rvalue; [d] when [i] is outside of [a]. *)
Definition load {A : Type} (d : A) (a : list A) (i : Z) : A :=
  if in_bounds a i then nth (Z.to_nat i) a d else d.

(** [a[i] = v]; no effect on [a] when [i] is outside of it. *)
Definition store {A : Type} (a : list A) (i : Z) (v : A) : list A :=
  if in_bounds a i then update a (Z.to_nat i) v else a.

(** ** Loops *)

(** [for (i = i0; cond(i); i++) body], at most [count] trips. *)
Fixpoint for_loop {S : Type} (count : nat) (i : Z) (cond : Z -> bool)
    (body : Z -> S -> S) (s : S) : S :=
  match count with
  | O => s
  | Datatypes.S c =>
      if cond i then for_loop c (i + 1) cond body (body i s) else s
  end.

(** The same with a body that may fail to come back. *)
Fixpoint for_loop_opt {S : Type} (count : nat) (i : Z) (cond : Z -> bool)
    (body : Z -> S -> option S) (s : S) : option S :=
  match count with
  | O => Some s
  | Datatypes.S c =>
      if cond i then
        match body i s with
        | Some s' => for_loop_opt c (i + 1) cond body s'
        | None => None
        end
      else Some s
  end.


(** [count] trips of a body, whatever the condition: what a [for] loop over
    a range amounts to. *)
Fixpoint iterate_from {S : Type} (count : nat) (i : Z) (body : Z -> S -> S)
    (s : S) : S :=
  match count with
  | O => s
  | Datatypes.S c => iterate_from c (i + 1) body (body i s)
  end.

(** Outcome of an operator call. *)
Inductive result (A : Type) : Type :=
| Done (a : A)
| InvalidArgument
| OutOfFuel.
Arguments Done {A} a.
Arguments InvalidArgument {A}.
Arguments OutOfFuel {A}.

Section Operators.

(** [RAND_MAX] of the C library and the values [rand()] returns, in the
    order of the calls. *)
Variable RAND_MAX : Z.
Variable rnd : nat -> Z.

(** ** randr (both NpointCrossover.c and TournamentSelection.c)

    [int randr(unsigned int min, unsigned int max)
       { return min + rand() / (RAND_MAX / (max - min + 1) + 1); }]
    with [r] the value of the call to [rand()].  All the arithmetic is
    [unsigned int].  C leaves a division by zero undefined; [Z.div] yields 0
    there, which the operators reach only with [max - min + 1 = 0] modulo
    [2^32] (an empty pool, [Eliterows = m]).  The properties of [randr] and
    of the loops that call it keep [0 <= min <= max]. *)
Definition randr (min max : Z) (r : Z) : Z :=
  let min := to_uint min in
  let max := to_uint max in
  to_int (to_uint
    (min + to_uint r / to_uint (to_uint RAND_MAX / to_uint (max - min + 1) + 1))).

(** The rejection loop that both operators use to draw distinct values
    (NpointCrossover.c 98-112, TournamentSelection.c 116-135), with the
    names taken out: draw in [min, max], scan the values chosen so far,
    keep the candidate when none of them equals it. *)
Definition already (candidate : Z) (chosen : list Z) : bool :=
  fold_left (fun flag c => if candidate =? c then true else flag) chosen false.

Fixpoint draw_distinct (fuel : nat) (min max count : Z) (i : Z)
    (chosen : list Z) (pos : nat) : option (list Z * nat) :=
  match fuel with
  | O => None
  | S fuel' =>
      if i <? count then
        let candidate := randr min max (rnd pos) in
        if already candidate chosen
        then draw_distinct fuel' min max count i chosen (S pos)
        else draw_distinct fuel' min max count (i + 1) (chosen ++ [candidate]) (S pos)
      else Some (chosen, pos)
  end.

(* ------------------------------------------------------------------ *)
(** ** BitflipMutation.c *)

(** [RandNr = (double)rand() / RAND_MAX], as the exact quotient.  The
    rounding of the double division is monotone and leaves 0 and 1 fixed, so
    that the test below is the one of the C code for [Pm <= 0], [Pm = 1] and
    [Pm > 1].  For another [Pm] the rounded quotient can lie on the other
    side of [Pm]: the properties that depend on the outcome of the test are
    stated for these values of [Pm] only. *)
Definition RandNr (r : Z) : Q := (inject_Z r / inject_Z RAND_MAX)%Q.

(** [RandNr < *Pm] *)
Definition triggered (Pm : Q) (r : Z) : bool := negb (Qle_bool Pm (RandNr r)).

(** Body of the inner loop (lines 86-97). *)
Definition mutate_cell (Pm : Q) (m gene : Z) (individual : Z)
    (s : list bool * nat) : list bool * nat :=
  let '(MutatedPopulation, pos) := s in
  if triggered Pm (rnd pos) then
    if Bool.eqb (load false MutatedPopulation (individual + gene * m)) true
    then (store MutatedPopulation (individual + gene * m) false, S pos)
    else (store MutatedPopulation (individual + gene * m) true, S pos)
  else (MutatedPopulation, S pos).

(** Body of the outer loop (lines 84-98); [individual < m] compares an [int]
    with a [size_t], hence as [size_t]. *)
Definition mutate_gene (Pm : Q) (ElitismNo m : Z) (gene : Z)
    (s : list bool * nat) : list bool * nat :=
  for_loop (Z.to_nat m) ElitismNo (fun individual => to_size_t individual <? m)
    (mutate_cell Pm m gene) s.

(** mexFunction of BitflipMutation.c: the mutated population and the number
    of draws made.  The output starts as a copy of the input (memcpy). *)
Definition Mutate_run (Population : list bool) (Pm : Q) (ElitismNo m n : Z)
    : list bool * nat :=
  let MutatedPopulation := Population in
  for_loop (Z.to_nat n) 0 (fun gene => to_size_t gene <? n)
    (mutate_gene Pm ElitismNo m) (MutatedPopulation, O).

Definition Mutate (Population : list bool) (Pm : Q) (ElitismNo m n : Z)
    : list bool :=
  fst (Mutate_run Population Pm ElitismNo m n).


(* ------------------------------------------------------------------ *)
(** ** NpointCrossover.c *)

(** [int cmpfunc(a, b) { return *(int* )a - *(int* )b; }]; the difference
    of two indices of a matrix does not leave the range of [int]. *)
Definition cmpfunc (a b : Z) : Z := to_int (a - b).

(** Modelled from the C library: [qsort(base, nmemb, size, compar)] is not
    part of the repository; it leaves the array sorted in ascending order
    with respect to [compar].  An insertion sort driven by [cmpfunc] stands
    for it. *)
Fixpoint qsort_insert (x : Z) (l : list Z) : list Z :=
  match l with
  | [] => [x]
  | y :: l' => if cmpfunc x y <=? 0 then x :: l else y :: qsort_insert x l'
  end.

Definition qsort (l : list Z) : list Z := fold_right qsort_insert [] l.

(** What the run of the operator leaves behind besides its output. *)
Inductive access : Type :=
| StoreChild (row gene : Z)     (* Children[row + gene*my] = ...  *)
| LoadPoint (e : Z).            (* ... CrossOverPoints[e] ...     *)

Record event : Type := {
  ev_P1 : Z;
  ev_P2 : Z;
  ev_points : list Z            (* CrossOverPoints after qsort *)
}.

Record cstate : Type := {
  Children : list bool;         (* my x n, column-major *)
  cpos : nat;                   (* draws made *)
  events : list event;          (* one entry per crossover event, in order *)
  accesses : list access        (* latest first *)
}.

(** Memory behind the [N] allocated cut points, by array index. *)
Variable junk : Z -> Z.

(** [CrossOverPoints[e]] *)
Definition load_point (CrossOverPoints : list Z) (e : Z) : Z :=
  if in_bounds CrossOverPoints e
  then nth (Z.to_nat e) CrossOverPoints 0
  else junk e.

(** [while (P1 == P2) P2 = randr(0, m - 1);] (lines 93-95) *)
Fixpoint redraw_P2 (fuel : nat) (m P1 P2 : Z) (pos : nat) : option (Z * nat) :=
  match fuel with
  | O => None
  | S fuel' =>
      if P1 =? P2
      then redraw_P2 fuel' m P1 (randr 0 (m - 1) (rnd pos)) (S pos)
      else Some (P2, pos)
  end.

(** [while (i < N) ...] (lines 98-112).  [CrossOverPoints] holds the entries
    [0 .. i-1] written so far; the later ones are not read by this loop. *)
Fixpoint pick_points (fuel : nat) (n N : Z) (i : Z) (CrossOverPoints : list Z)
    (pos : nat) : option (list Z * nat) :=
  match fuel with
  | O => None
  | S fuel' =>
      if i <? N then
        let CandidatePoint := randr 0 (n - 1) (rnd pos) in
        let AlreadyChosen :=
          fold_left (fun flag c => if CandidatePoint =? c then true else flag)
                    CrossOverPoints false in
        if Bool.eqb AlreadyChosen false
        then pick_points fuel' n N (i + 1) (CrossOverPoints ++ [CandidatePoint]) (S pos)
        else pick_points fuel' n N i CrossOverPoints (S pos)
      else Some (CrossOverPoints, pos)
  end.

(** Body of the gene loop (lines 120-139). *)
Definition assign_gene (Parentpool : list bool) (m my P1 P2 GeneratedChild : Z)
    (CrossOverPoints : list Z) (gene : Z)
    (s : Z * list bool * list access) : Z * list bool * list access :=
  let '(e, Ch, acc) := s in
  let acc := LoadPoint e :: acc in
  let e := if gene >? load_point CrossOverPoints e then e + 1 else e in
  if Z.rem e 2 =? 0 then
    let Ch := store Ch (GeneratedChild + gene * my) (load false Parentpool (P1 + gene * m)) in
    let acc := StoreChild GeneratedChild gene :: acc in
    if GeneratedChild <? my
    then (e, store Ch (GeneratedChild + 1 + gene * my) (load false Parentpool (P2 + gene * m)),
          StoreChild (GeneratedChild + 1) gene :: acc)
    else (e, Ch, acc)
  else
    let Ch := store Ch (GeneratedChild + gene * my) (load false Parentpool (P2 + gene * m)) in
    let acc := StoreChild GeneratedChild gene :: acc in
    if GeneratedChild <? my
    then (e, store Ch (GeneratedChild + 1 + gene * my) (load false Parentpool (P1 + gene * m)),
          StoreChild (GeneratedChild + 1) gene :: acc)
    else (e, Ch, acc).

(** One trip of [while (GeneratedChild < my)] (lines 89-140). *)
Definition crossover_event (fuel : nat) (Parentpool : list bool) (m n N my : Z)
    (GeneratedChild : Z) (st : cstate) : option cstate :=
  let pos := cpos st in
  let P1 := randr 0 (m - 1) (rnd pos) in
  let P2 := randr 0 (m - 1) (rnd (S pos)) in
  match redraw_P2 fuel m P1 P2 (S (S pos)) with
  | None => None
  | Some (P2, pos) =>
      match pick_points fuel n N 0 [] pos with
      | None => None
      | Some (CrossOverPoints, pos) =>
          let CrossOverPoints := qsort CrossOverPoints in
          let '(_, Ch, acc) :=
            for_loop (Z.to_nat n) 0 (fun gene => to_size_t gene <? n)
              (assign_gene Parentpool m my P1 P2 GeneratedChild CrossOverPoints)
              (0, Children st, accesses st) in
          Some {| Children := Ch;
                  cpos := pos;
                  events := events st ++ [{| ev_P1 := P1; ev_P2 := P2;
                                             ev_points := CrossOverPoints |}];
                  accesses := acc |}
      end
  end.

(** mexFunction of NpointCrossover.c.  [mxCreateLogicalMatrix(my, n)] gives
    a zeroed matrix; [N > n] compares an [int] with a [size_t]. *)
Definition Crossover (fuel : nat) (Parentpool : list bool) (m n N my : Z)
    : result cstate :=
  let Children0 := repeat false (Z.to_nat (my * n)) in
  if to_size_t N >? n then InvalidArgument
  else if N <=? 0 then InvalidArgument
  else
    match for_loop_opt (Z.to_nat my) 0 (fun GeneratedChild => GeneratedChild <? my)
            (crossover_event fuel Parentpool m n N my)
            {| Children := Children0; cpos := O; events := []; accesses := [] |}
    with
    | Some st => Done st
    | None => OutOfFuel
    end.

(* ------------------------------------------------------------------ *)
(** ** TournamentSelection.c *)

(** Fitness values are C doubles; the operator only copies them and compares
    them with [>], so they are kept abstract, with [gtb] for [>] and [Fzero]
    for the 0.0 of a fresh Matlab matrix. *)
Variable F : Type.
Variable gtb : F -> F -> bool.
Variable Fzero : F.

Record sstate : Type := {
  Survivors : list bool;        (* NoSurvivors x n, column-major *)
  SurvivorFitness : list F;
  Winner : F;
  WinnerIndex : Z;
  spos : nat;                   (* draws made *)
  tours : list (list Z)         (* ContenderList of each tournament, in order *)
}.

(** [while (Contender < k) ...] (lines 117-135).  The two lists hold the
    entries [0 .. Contender-1] written so far. *)
Fixpoint pick_contenders (fuel : nat) (Fitness : list F) (Eliterows m k : Z)
    (Contender : Z) (ContenderList : list Z) (ContenderFitnessList : list F)
    (pos : nat) : option (list Z * list F * nat) :=
  match fuel with
  | O => None
  | S fuel' =>
      if Contender <? k then
        let ContenderIndex := randr Eliterows (m - 1) (rnd pos) in
        let AlreadyInTour :=
          fold_left (fun flag c => if ContenderIndex =? c then true else flag)
                    ContenderList false in
        if Bool.eqb AlreadyInTour false
        then pick_contenders fuel' Fitness Eliterows m k (Contender + 1)
               (ContenderList ++ [ContenderIndex])
               (ContenderFitnessList ++ [load Fzero Fitness ContenderIndex])
               (S pos)
        else pick_contenders fuel' Fitness Eliterows m k Contender
               ContenderList ContenderFitnessList (S pos)
      else Some (ContenderList, ContenderFitnessList, pos)
  end.

(** Body of the winner loop (lines 139-150). *)
Definition judge (ContenderList : list Z) (ContenderFitnessList : list F)
    (row : Z) (s : F * Z) : F * Z :=
  let '(Winner, WinnerIndex) := s in
  if row =? 0 then
    (load Fzero ContenderFitnessList row, load 0 ContenderList row)
  else if gtb (load Fzero ContenderFitnessList row) Winner then
    (load Fzero ContenderFitnessList row, load 0 ContenderList row)
  else (Winner, WinnerIndex).

(** One trip of the tournament loop (lines 113-158). *)
Definition tournament (fuel : nat) (k : Z) (Fitness : list F)
    (Population : list bool) (NoSurvivors Eliterows m n : Z)
    (Tournament : Z) (st : sstate) : option sstate :=
  match pick_contenders fuel Fitness Eliterows m k 0 [] [] (spos st) with
  | None => None
  | Some (ContenderList, ContenderFitnessList, pos) =>
      let '(Winner, WinnerIndex) :=
        for_loop (Z.to_nat k) 0 (fun row => row <? k)
          (judge ContenderList ContenderFitnessList)
          (Winner st, WinnerIndex st) in
      let SurvivorFitness := store (SurvivorFitness st) Tournament Winner in
      let Survivors :=
        for_loop (Z.to_nat n) 0 (fun col => to_size_t col <? n)
          (fun col Sv => store Sv (Tournament + NoSurvivors * col)
                           (load false Population (WinnerIndex + m * col)))
          (Survivors st) in
      Some {| Survivors := Survivors;
              SurvivorFitness := SurvivorFitness;
              Winner := Winner;
              WinnerIndex := WinnerIndex;
              spos := pos;
              tours := tours st ++ [ContenderList] |}
  end.

(** [TourSel]; [Winner0] and [WinnerIndex0] are what the two locals hold
    before their first assignment. *)
Definition TourSel (fuel : nat) (k : Z) (Fitness : list F)
    (Population : list bool) (NoSurvivors Eliterows m n : Z)
    (Survivors0 : list bool) (SurvivorFitness0 : list F)
    (Winner0 : F) (WinnerIndex0 : Z) : option sstate :=
  for_loop_opt (Z.to_nat NoSurvivors) 0 (fun Tournament => Tournament <? NoSurvivors)
    (tournament fuel k Fitness Population NoSurvivors Eliterows m n)
    {| Survivors := Survivors0; SurvivorFitness := SurvivorFitness0;
       Winner := Winner0; WinnerIndex := WinnerIndex0;
       spos := O; tours := [] |}.

(** mexFunction of TournamentSelection.c: two zeroed output matrices, then
    [TourSel]. *)
Definition Select (fuel : nat) (k : Z) (Fitness : list F)
    (Population : list bool) (NoSurvivors Eliterows m n : Z)
    (Winner0 : F) (WinnerIndex0 : Z) : result sstate :=
  let Survivors0 := repeat false (Z.to_nat (NoSurvivors * n)) in
  let SurvivorFitness0 := repeat Fzero (Z.to_nat NoSurvivors) in
  match TourSel fuel k Fitness Population NoSurvivors Eliterows m n
          Survivors0 SurvivorFitness0 Winner0 WinnerIndex0 with
  | Some st => Done st
  | None => OutOfFuel
  end.




End Operators.

Arguments Survivors {F} s.
Arguments SurvivorFitness {F} s.
Arguments Winner {F} s.
Arguments WinnerIndex {F} s.
Arguments spos {F} s.
Arguments tours {F} s.

(* ================================================================== *)
(** * Part II: notions used to state the properties                    *)
(* ================================================================== *)

(** Index, in the stream of draws of one call to [Mutate], of the draw that
    decides gene [gene] of row [individual]: the gene loop is the outer one,
    and each of its trips makes [m - ElitismNo] draws. *)
Definition draw_index (ElitismNo m gene individual : Z) : nat :=
  Z.to_nat (gene * (m - ElitismNo) + (individual - ElitismNo)).

(** Value of gene [gene] of row [individual] after its visit by [Mutate]:
    flipped when the draw made for it triggers. *)
Definition mutated_gene (RAND_MAX : Z) (rnd : nat -> Z) (Pm : Q)
    (Population : list bool) (ElitismNo m gene individual : Z) : bool :=
  let v := load false Population (individual + gene * m) in
  if triggered RAND_MAX Pm (rnd (draw_index ElitismNo m gene individual)) then negb v else v.

(** Values that an [int] index or cut point can take. *)
Definition int_index (c : Z) : Prop := 0 <= c <= INT_MAX.

(** The winner of a tournament among the contenders [cl], by position [w] in
    the order of the draw: none is fitter, and all the earlier ones are
    strictly less fit. *)
Definition tournament_winner {F : Type} (gtb : F -> F -> bool) (fitness : Z -> F)
    (cl : list Z) (k w : Z) : Prop :=
  0 <= w < k /\
  (forall j, 0 <= j < k ->
     gtb (fitness (load 0 cl j)) (fitness (load 0 cl w)) = false) /\
  (forall j, 0 <= j < w ->
     gtb (fitness (load 0 cl w)) (fitness (load 0 cl j)) = true).



(** A stream of draws for the examples: 0, RAND_MAX, 0, RAND_MAX, ... with
    [RAND_MAX = 32767]. *)
Definition alternating (q : nat) : Z := if Nat.even q then 0 else 32767.

(** The segment index [e] before gene [gene] is handled: the cut points of
    index below [e] are those that lie before column [gene - 1]. *)
Definition segment_index (pts : list Z) (gene e : Z) : Prop :=
  0 <= e <= Z.of_nat (length pts) /\
  (forall i, 0 <= i < e -> nth (Z.to_nat i) pts 0 < gene - 1) /\
  (forall i, e <= i < Z.of_nat (length pts) -> gene - 1 <= nth (Z.to_nat i) pts 0).

(** Number of the segment of a column: how many cut points lie before it. *)
Definition segment_of (pts : list Z) (column : Z) : Z :=
  Z.of_nat (length (filter (fun p => p <? column) pts)).

(* ================================================================== *)
(** * Part III: properties                                             *)
(* ================================================================== *)

(** ** Machine integers *)

Lemma to_uint_small (z : Z) : 0 <= z < UINT_MOD -> to_uint z = z.
Proof. intros H. unfold to_uint. now apply Z.mod_small. Qed.

Lemma to_size_t_small (z : Z) : 0 <= z < SIZE_MOD -> to_size_t z = z.
Proof. intros H. unfold to_size_t. now apply Z.mod_small. Qed.

Lemma to_int_small (z : Z) : 0 <= z <= INT_MAX -> to_int z = z.
Proof.
  intros H. unfold to_int.
  rewrite Z.mod_small by (unfold INT_MAX, UINT_MOD in *; lia).
  destruct (Z.leb_spec z INT_MAX); lia.
Qed.

Lemma to_int_small_neg (z : Z) : - INT_MAX - 1 <= z < 0 -> to_int z = z.
Proof.
  intros H. unfold to_int.
  replace (z mod UINT_MOD) with (z + UINT_MOD).
  - destruct (Z.leb_spec (z + UINT_MOD) INT_MAX);
      unfold INT_MAX, UINT_MOD in *; lia.
  - apply Z.mod_unique with (q := -1);
      unfold INT_MAX, UINT_MOD in *; lia.
Qed.

Lemma to_size_t_negative (z : Z) :
  - INT_MAX - 1 <= z < 0 -> SIZE_MOD - INT_MAX - 1 <= to_size_t z.
Proof.
  intros H. unfold to_size_t.
  replace (z mod SIZE_MOD) with (z + SIZE_MOD); [lia|].
  apply Z.mod_unique with (q := -1); unfold INT_MAX, SIZE_MOD in *; lia.
Qed.

(** ** Flat arrays *)

Section Arrays.
Context {A : Type}.
Implicit Types (a : list A) (v d : A).

Lemma length_update a (i : nat) v : length (update a i v) = length a.
Proof.
  revert i. induction a as [|h t IH]; intros [|i]; simpl; auto.
Qed.

Lemma nth_update_same a (i : nat) v d :
  (i < length a)%nat -> nth i (update a i v) d = v.
Proof.
  revert i. induction a as [|h t IH]; intros [|i] H; simpl in *; try lia; auto.
  apply IH. lia.
Qed.

Lemma nth_update_other a (i j : nat) v d :
  i <> j -> nth j (update a i v) d = nth j a d.
Proof.
  revert i j.
  induction a as [|h t IH]; intros [|i] [|j] H; simpl; auto; try contradiction.
Qed.

Lemma length_store a (i : Z) v : length (store a i v) = length a.
Proof.
  unfold store. destruct (in_bounds a i); auto using length_update.
Qed.

Lemma in_bounds_iff a (i : Z) :
  in_bounds a i = true <-> 0 <= i < Z.of_nat (length a).
Proof.
  unfold in_bounds. rewrite andb_true_iff, Z.leb_le, Z.ltb_lt. tauto.
Qed.

Lemma in_bounds_store a (i j : Z) v : in_bounds (store a i v) j = in_bounds a j.
Proof. unfold in_bounds. now rewrite length_store. Qed.

Lemma load_store_same a (i : Z) v d :
  in_bounds a i = true -> load d (store a i v) i = v.
Proof.
  intros H. unfold load. rewrite in_bounds_store, H.
  unfold store. rewrite H. apply nth_update_same.
  apply in_bounds_iff in H. lia.
Qed.

Lemma load_store_other a (i j : Z) v d :
  i <> j -> load d (store a i v) j = load d a j.
Proof.
  intros H. unfold load. rewrite in_bounds_store.
  destruct (in_bounds a j) eqn:Hj; auto.
  unfold store. destruct (in_bounds a i) eqn:Hi; auto.
  apply nth_update_other.
  apply in_bounds_iff in Hi, Hj. lia.
Qed.

Lemma load_outside a (i : Z) d : in_bounds a i = false -> load d a i = d.
Proof. intros H. unfold load. now rewrite H. Qed.

(** Two arrays of one length with the same entries are equal. *)
Lemma load_ext a b d :
  length a = length b ->
  (forall i, 0 <= i < Z.of_nat (length a) -> load d a i = load d b i) ->
  a = b.
Proof.
  intros Hlen H. apply nth_ext with (d := d) (d' := d); auto.
  intros k Hk. specialize (H (Z.of_nat k)).
  unfold load, in_bounds in H. rewrite <- Hlen in H.
  destruct (Z.leb_spec 0 (Z.of_nat k)); [|lia].
  destruct (Z.ltb_spec (Z.of_nat k) (Z.of_nat (length a))); [|lia].
  simpl in H. rewrite Nat2Z.id in H. apply H. lia.
Qed.

End Arrays.

Lemma load_map {A B : Type} (f : A -> B) (dA : A) (dB : B) (a : list A) (i : Z) :
  in_bounds a i = true -> load dB (map f a) i = f (load dA a i).
Proof.
  intros H. unfold load, in_bounds in *. rewrite length_map, H.
  rewrite nth_indep with (d' := f dA).
  - apply map_nth.
  - rewrite length_map. apply andb_true_iff in H. destruct H as [H1 H2].
    apply Z.leb_le in H1. apply Z.ltb_lt in H2. lia.
Qed.

(** ** Loops *)

Section Loops.
Context {S : Type}.
Variable cond : Z -> bool.
Variable body : Z -> S -> S.

(** A counted loop whose condition holds on a range and whose trip bound
    covers the range makes one trip per index of the range. *)
Lemma for_loop_iterate (trips count : nat) (lo : Z) (s : S) :
  (forall i, lo <= i < lo + Z.of_nat trips -> cond i = true) ->
  cond (lo + Z.of_nat trips) = false \/ count = trips ->
  (trips <= count)%nat ->
  for_loop count lo cond body s = iterate_from trips lo body s.
Proof.
  revert count lo s.
  induction trips as [|t IH]; intros count lo s Hin Hout Hle.
  - destruct count as [|c]; simpl; auto.
    destruct Hout as [Hout|Hout]; [|discriminate].
    rewrite Z.add_0_r in Hout. now rewrite Hout.
  - destruct count as [|c]; [lia|]. simpl.
    rewrite Hin by lia.
    apply IH.
    + intros i Hi. apply Hin. lia.
    + destruct Hout as [Hout|Hout]; [left|right; congruence].
      rewrite <- Hout. f_equal. lia.
    + lia.
Qed.

Lemma for_loop_none (count : nat) (lo : Z) (s : S) :
  cond lo = false -> for_loop count lo cond body s = s.
Proof. intros H. destruct count; simpl; auto. now rewrite H. Qed.

(** Invariant rule. *)
Lemma iterate_from_ind (P : Z -> S -> Prop) (trips : nat) (lo : Z) (s : S) :
  P lo s ->
  (forall i s, lo <= i < lo + Z.of_nat trips -> P i s -> P (i + 1) (body i s)) ->
  P (lo + Z.of_nat trips) (iterate_from trips lo body s).
Proof.
  revert lo s. induction trips as [|t IH]; intros lo s H0 Hstep.
  - simpl. now rewrite Z.add_0_r.
  - replace (lo + Z.of_nat (Datatypes.S t)) with (lo + 1 + Z.of_nat t) by lia.
    cbn [iterate_from]. apply IH.
    + apply Hstep; auto. lia.
    + intros i s' Hi. apply Hstep. lia.
Qed.

End Loops.

(** [for (i = lo; i < hi; i++)] with an [int] counter and a [size_t]
    bound. *)
Lemma for_loop_size_t {S : Type} (body : Z -> S -> S) (lo hi : Z) (s : S) :
  0 <= lo <= hi -> hi < SIZE_MOD ->
  for_loop (Z.to_nat hi) lo (fun i => to_size_t i <? hi) body s =
  iterate_from (Z.to_nat (hi - lo)) lo body s.
Proof.
  intros Hlo Hhi. apply for_loop_iterate.
  - intros i Hi. rewrite to_size_t_small by lia. apply Z.ltb_lt. lia.
  - left. rewrite to_size_t_small by lia. apply Z.ltb_ge. lia.
  - lia.
Qed.

(** The same with both sides [int]. *)
Lemma for_loop_int {S : Type} (body : Z -> S -> S) (hi : Z) (s : S) :
  for_loop (Z.to_nat hi) 0 (fun i => i <? hi) body s =
  iterate_from (Z.to_nat hi) 0 body s.
Proof.
  apply for_loop_iterate.
  - intros i Hi. apply Z.ltb_lt. lia.
  - now right.
  - lia.
Qed.

(** A property that every trip keeps holds after the loop. *)
Lemma for_loop_preserves {S : Type} (P : S -> Prop) cond (body : Z -> S -> S) count lo s :
  (forall i s, P s -> P (body i s)) -> P s -> P (for_loop count lo cond body s).
Proof.
  intros Hstep. revert lo s.
  induction count as [|c IH]; intros lo s Hs; simpl; auto.
  destruct (cond lo); auto.
Qed.

(** Invariant rule for a loop whose body may fail to come back. *)
Lemma for_loop_opt_ind {S : Type} (P : Z -> S -> Prop) (cond : Z -> bool)
    (body : Z -> S -> option S) (count : nat) :
  forall (lo : Z) (s r : S),
    for_loop_opt count lo cond body s = Some r ->
    P lo s ->
    (forall i s s', lo <= i -> cond i = true -> P i s -> body i s = Some s' -> P (i + 1) s') ->
    exists hi, lo <= hi <= lo + Z.of_nat count /\ P hi r /\
               (hi < lo + Z.of_nat count -> cond hi = false).
Proof.
  induction count as [|c IH]; intros lo s r Hrun H0 Hstep; simpl in Hrun.
  - injection Hrun as <-. exists lo. split; [lia|]. split; auto. lia.
  - destruct (cond lo) eqn:Hc.
    + destruct (body lo s) as [s'|] eqn:Hb; [|discriminate].
      destruct (IH (lo + 1) s' r Hrun) as (hi & Hhi & HP & Hex).
      * apply (Hstep lo s s'); auto. lia.
      * intros i s1 s2 Hi. apply Hstep. lia.
      * exists hi. split; [lia|]. split; auto. intros H. apply Hex. lia.
    + injection Hrun as <-. exists lo. split; [lia|]. split; auto.
Qed.

(** A loop of bodies that come back on enough fuel comes back on enough
    fuel. *)
Section FuelledLoops.
Context {S : Type}.
Variable cond : Z -> bool.
Variable body : nat -> Z -> S -> option S.
Hypothesis body_mono :
  forall fuel fuel' i s r,
    (fuel <= fuel')%nat -> body fuel i s = Some r -> body fuel' i s = Some r.


Hypothesis body_returns : forall i s, exists fuel r, body fuel i s = Some r.


End FuelledLoops.

(** ** randr and the rejection loop *)

Section Sampling.
Variable RAND_MAX : Z.
Variable rnd : nat -> Z.
Hypothesis RAND_MAX_range : 0 < RAND_MAX <= INT_MAX.
Hypothesis rnd_range : forall k, 0 <= rnd k <= RAND_MAX.

(** [randr(min, max)] lies in [min, max]. *)
Lemma randr_range (min max r : Z) :
  0 <= min <= max -> max <= INT_MAX -> 0 <= r <= RAND_MAX ->
  min <= randr RAND_MAX min max r <= max.
Proof.
  intros Hmin Hmax Hr. unfold randr.
  assert (HI : INT_MAX < UINT_MOD) by (unfold INT_MAX, UINT_MOD; lia).
  rewrite (to_uint_small min), (to_uint_small max) by lia.
  rewrite (to_uint_small RAND_MAX), (to_uint_small r) by lia.
  set (range := max - min + 1).
  assert (Hrange : 0 < range <= INT_MAX + 1) by (unfold range; lia).
  rewrite (to_uint_small range) by (unfold INT_MAX, UINT_MOD in *; lia).
  set (d := RAND_MAX / range + 1).
  assert (Hq : 0 <= RAND_MAX / range <= RAND_MAX).
  { split; [apply Z.div_pos; lia|].
    apply Z.div_le_upper_bound; nia. }
  assert (Hd : 0 < d <= INT_MAX + 1) by (unfold d; lia).
  rewrite (to_uint_small d) by (unfold INT_MAX, UINT_MOD in *; lia).
  assert (Hdiv : 0 <= r / d < range).
  { split; [apply Z.div_pos; lia|].
    apply Z.div_lt_upper_bound; [lia|].
    pose proof (Z.mod_pos_bound RAND_MAX range ltac:(lia)).
    pose proof (Z.div_mod RAND_MAX range ltac:(lia)).
    unfold d. nia. }
  rewrite to_uint_small by (unfold range in *; lia).
  rewrite to_int_small by (unfold range in *; lia).
  unfold range in *. lia.
Qed.

End Sampling.

Section RejectionLoop.
Variable RAND_MAX : Z.
Variable rnd : nat -> Z.

Lemma already_fold (candidate : Z) (chosen : list Z) (flag : bool) :
  fold_left (fun flag c => if candidate =? c then true else flag) chosen flag =
  flag || existsb (Z.eqb candidate) chosen.
Proof.
  revert flag. induction chosen as [|c l IH]; intros flag; simpl.
  - now rewrite orb_false_r.
  - rewrite IH. destruct (candidate =? c), flag; reflexivity.
Qed.

Lemma already_In (candidate : Z) (chosen : list Z) :
  already candidate chosen = true <-> In candidate chosen.
Proof.
  unfold already. rewrite already_fold. simpl.
  rewrite existsb_exists. split.
  - intros (x & Hx & Heq). apply Z.eqb_eq in Heq. now subst.
  - intros H. exists candidate. split; auto. apply Z.eqb_refl.
Qed.

Lemma already_not_In (candidate : Z) (chosen : list Z) :
  already candidate chosen = false <-> ~ In candidate chosen.
Proof.
  rewrite <- already_In. destruct (already candidate chosen); split; congruence.
Qed.

(** What the loop returns: [count] pairwise distinct values, each of the new
    ones a draw made by the loop. *)
Lemma draw_distinct_spec (min max count : Z) (fuel : nat) :
  forall (i : Z) (chosen : list Z) (pos : nat) (res : list Z) (pos' : nat),
    draw_distinct RAND_MAX rnd fuel min max count i chosen pos = Some (res, pos') ->
    Z.of_nat (length chosen) = i -> i <= count -> NoDup chosen ->
    Z.of_nat (length res) = count /\ NoDup res /\ (pos <= pos')%nat /\
    forall c, In c res ->
      In c chosen \/ exists q, (pos <= q < pos')%nat /\ c = randr RAND_MAX min max (rnd q).
Proof.
  induction fuel as [|fuel IH]; intros i chosen pos res pos' Hrun Hlen Hle Hnd;
    simpl in Hrun; [discriminate|].
  destruct (Z.ltb_spec i count) as [Hlt|Hge].
  - destruct (already _ chosen) eqn:Hal.
    + apply IH in Hrun; auto.
      destruct Hrun as (H1 & H2 & H3 & H4). repeat split; auto; try lia.
      intros c Hc. destruct (H4 c Hc) as [?|(q & Hq & ?)]; auto.
      right. exists q. split; [lia|assumption].
    + apply already_not_In in Hal.
      apply IH in Hrun.
      * destruct Hrun as (H1 & H2 & H3 & H4). repeat split; auto; try lia.
        intros c Hc. destruct (H4 c Hc) as [Hin|(q & Hq & ?)].
        -- apply in_app_or in Hin. destruct Hin as [Hin|[<-|[]]]; [now left|].
           right. exists pos. split; [lia|reflexivity].
        -- right. exists q. split; [lia|assumption].
      * rewrite length_app. simpl. lia.
      * lia.
      * apply NoDup_app; auto.
        -- repeat constructor. simpl. tauto.
        -- intros x Hx [<-|[]]. contradiction.
  - injection Hrun as <- <-. repeat split; auto; lia.
Qed.



End RejectionLoop.

(** [randr] on arguments and a draw within their C ranges, without the
    conversions. *)
Lemma randr_plain (RAND_MAX min max r : Z) :
  0 < RAND_MAX <= INT_MAX -> 0 <= min <= max -> max <= INT_MAX ->
  0 <= r <= RAND_MAX ->
  randr RAND_MAX min max r = min + r / (RAND_MAX / (max - min + 1) + 1) /\
  0 <= r / (RAND_MAX / (max - min + 1) + 1) <= max - min.
Proof.
  intros HR Hmin Hmax Hr. unfold randr.
  assert (HI : INT_MAX < UINT_MOD) by (unfold INT_MAX, UINT_MOD; lia).
  rewrite (to_uint_small min), (to_uint_small max) by lia.
  rewrite (to_uint_small RAND_MAX), (to_uint_small r) by lia.
  set (range := max - min + 1).
  assert (Hrange : 0 < range <= INT_MAX + 1) by (unfold range; lia).
  rewrite (to_uint_small range) by (unfold INT_MAX, UINT_MOD in *; lia).
  set (d := RAND_MAX / range + 1).
  assert (Hq : 0 <= RAND_MAX / range <= RAND_MAX).
  { split; [apply Z.div_pos; lia|]. apply Z.div_le_upper_bound; nia. }
  assert (Hd : 0 < d <= INT_MAX + 1) by (unfold d; lia).
  rewrite (to_uint_small d) by (unfold INT_MAX, UINT_MOD in *; lia).
  assert (Hdiv : 0 <= r / d < range).
  { split; [apply Z.div_pos; lia|].
    apply Z.div_lt_upper_bound; [lia|].
    pose proof (Z.mod_pos_bound RAND_MAX range ltac:(lia)).
    pose proof (Z.div_mod RAND_MAX range ltac:(lia)).
    unfold d. nia. }
  rewrite to_uint_small by (unfold range in *; lia).
  rewrite to_int_small by (unfold range in *; lia).
  split; [reflexivity|]. unfold range in *. lia.
Qed.

(** Pairwise distinct values of a range are no more than the range has. *)
Lemma NoDup_range_length (lo hi : Z) (l : list Z) :
  NoDup l -> Forall (fun c => lo <= c < hi) l ->
  Z.of_nat (length l) <= Z.max 0 (hi - lo).
Proof.
  intros Hnd Hall.
  set (all := map (fun i => lo + Z.of_nat i) (seq 0 (Z.to_nat (hi - lo)))).
  assert (Hincl : incl l all).
  { intros c Hc. rewrite Forall_forall in Hall. specialize (Hall c Hc).
    unfold all. apply in_map_iff. exists (Z.to_nat (c - lo)).
    split; [lia|]. apply in_seq. lia. }
  pose proof (NoDup_incl_length Hnd Hincl) as Hle.
  unfold all in Hle. rewrite length_map, length_seq in Hle. lia.
Qed.

Lemma alternating_range (q : nat) : 0 <= alternating q <= 32767.
Proof. unfold alternating. destruct (Nat.even q); lia. Qed.


(** ** BitflipMutation.c *)

Lemma cell_index_inj (m i g i' g' : Z) :
  0 <= i < m -> 0 <= i' < m -> i + g * m = i' + g' * m -> i = i' /\ g = g'.
Proof.
  intros Hi Hi' H.
  assert (g = g') by nia. subst. lia.
Qed.

Lemma cell_index_bound (m n i g : Z) :
  0 <= i < m -> 0 <= g < n -> 0 <= i + g * m < m * n.
Proof. intros. nia. Qed.

Section Mutation.
Variable RAND_MAX : Z.
Variable rnd : nat -> Z.
Variable Pm : Q.
Variable Population : list bool.
Variables ElitismNo m n : Z.

Lemma mutate_cell_eq gene individual M pos :
  mutate_cell RAND_MAX rnd Pm m gene individual (M, pos) =
  (if triggered RAND_MAX Pm (rnd pos)
   then store M (individual + gene * m) (negb (load false M (individual + gene * m)))
   else M, S pos).
Proof.
  unfold mutate_cell.
  destruct (triggered RAND_MAX Pm (rnd pos)); auto.
  destruct (load false M (individual + gene * m)); reflexivity.
Qed.

Hypothesis HE : 0 <= ElitismNo <= m.
Hypothesis Hm : m < SIZE_MOD.
Hypothesis Hn : 0 <= n < SIZE_MOD.
Hypothesis Hshape : Z.of_nat (length Population) = m * n.

(** State of the run when the cells before [(g, i)] have been visited. *)
Definition visited (g i gene individual : Z) : Prop :=
  ElitismNo <= individual /\ (gene < g \/ (gene = g /\ individual < i)).

Definition mutate_inv (g i : Z) (s : list bool * nat) : Prop :=
  snd s = Z.to_nat (g * (m - ElitismNo) + (i - ElitismNo)) /\
  length (fst s) = length Population /\
  forall gene individual, 0 <= gene < n -> 0 <= individual < m ->
    (visited g i gene individual ->
       load false (fst s) (individual + gene * m) =
       mutated_gene RAND_MAX rnd Pm Population ElitismNo m gene individual) /\
    (~ visited g i gene individual ->
       load false (fst s) (individual + gene * m) =
       load false Population (individual + gene * m)).

Lemma mutate_cell_inv g i s :
  0 <= g < n -> ElitismNo <= i < m ->
  mutate_inv g i s -> mutate_inv g (i + 1) (mutate_cell RAND_MAX rnd Pm m g i s).
Proof.
  intros Hg Hi. destruct s as [M pos]. intros (Hpos & Hlen & Hcells).
  rewrite mutate_cell_eq. unfold mutate_inv. cbn [fst snd] in *.
  split; [|split].
  - assert (0 <= g * (m - ElitismNo)) by nia. lia.
  - destruct (triggered _ _ _); auto. now rewrite length_store.
  - intros gene individual Hgene Hind.
    assert (Hb : in_bounds M (i + g * m) = true).
    { apply in_bounds_iff. rewrite Hlen, Hshape. apply cell_index_bound; lia. }
    destruct (Hcells g i Hg ltac:(lia)) as [_ Hfresh].
    specialize (Hfresh ltac:(unfold visited; lia)).
    destruct (Hcells gene individual Hgene Hind) as [Hv Hnv].
    destruct (Z.eq_dec (individual + gene * m) (i + g * m)) as [Heq|Hne].
    + apply cell_index_inj in Heq; try lia. destruct Heq; subst individual gene.
      split; [intros _|intros Hc; exfalso; apply Hc; unfold visited; lia].
      unfold mutated_gene, draw_index. rewrite <- Hpos.
      destruct (triggered _ _ _).
      * rewrite load_store_same by auto. now rewrite Hfresh.
      * auto.
    + assert (Hsame : load false
                (if triggered RAND_MAX Pm (rnd pos)
                 then store M (i + g * m) (negb (load false M (i + g * m))) else M)
                (individual + gene * m) = load false M (individual + gene * m)).
      { destruct (triggered _ _ _); auto. apply load_store_other. congruence. }
      rewrite Hsame.
      assert (Hiff : visited g (i + 1) gene individual <-> visited g i gene individual).
      { assert (~ (gene = g /\ individual = i)) by (intros [-> ->]; now apply Hne).
        unfold visited. lia. }
      split; intros H; [apply Hv|apply Hnv]; tauto.
Qed.

Lemma mutate_gene_inv g s :
  0 <= g < n ->
  mutate_inv g ElitismNo s ->
  mutate_inv (g + 1) ElitismNo (mutate_gene RAND_MAX rnd Pm ElitismNo m g s).
Proof.
  intros Hg Hinv. unfold mutate_gene.
  rewrite for_loop_size_t by lia.
  assert (H : mutate_inv g (ElitismNo + Z.of_nat (Z.to_nat (m - ElitismNo)))
                (iterate_from (Z.to_nat (m - ElitismNo)) ElitismNo
                   (mutate_cell RAND_MAX rnd Pm m g) s)).
  { apply iterate_from_ind with (P := mutate_inv g); auto.
    intros i s' Hi. apply mutate_cell_inv; lia. }
  rewrite Z2Nat.id in H by lia.
  replace (ElitismNo + (m - ElitismNo)) with m in H by lia.
  destruct H as (Hpos & Hlen & Hcells).
  split; [|split]; auto.
  - rewrite Hpos. f_equal. lia.
  - intros gene individual Hgene Hind.
    destruct (Hcells gene individual Hgene Hind) as [Hv Hnv].
    split; intros H; [apply Hv|apply Hnv]; unfold visited in *; lia.
Qed.

Lemma Mutate_run_inv :
  mutate_inv n ElitismNo (Mutate_run RAND_MAX rnd Population Pm ElitismNo m n).
Proof.
  unfold Mutate_run. rewrite for_loop_size_t by lia.
  rewrite Z.sub_0_r.
  assert (H : mutate_inv (0 + Z.of_nat (Z.to_nat n)) ElitismNo
                (iterate_from (Z.to_nat n) 0 (mutate_gene RAND_MAX rnd Pm ElitismNo m)
                   (Population, O))).
  { apply iterate_from_ind with (P := fun g => mutate_inv g ElitismNo).
    - split; [|split]; simpl; auto.
      + lia.
      + intros gene individual Hgene Hind. split; auto.
        unfold visited. lia.
    - intros g s Hg. apply mutate_gene_inv. lia. }
  rewrite Z2Nat.id in H by lia. exact H.
Qed.

End Mutation.

(** [RandNr < 0] never holds, and [RandNr < 1] holds but for the draw
    [RAND_MAX]. *)
Lemma triggered_zero RAND_MAX r : 0 < RAND_MAX -> 0 <= r -> triggered RAND_MAX 0 r = false.
Proof.
  intros HR Hr. unfold triggered, RandNr.
  apply negb_false_iff, Qle_bool_iff.
  apply Qle_shift_div_l.
  - change 0%Q with (inject_Z 0). rewrite <- Zlt_Qlt. lia.
  - rewrite Qmult_0_l. change 0%Q with (inject_Z 0). rewrite <- Zle_Qle. lia.
Qed.

Lemma triggered_one RAND_MAX r : 0 < RAND_MAX -> triggered RAND_MAX 1 r = (r <? RAND_MAX).
Proof.
  intros HR. unfold triggered, RandNr.
  assert (HQ : (0 < inject_Z RAND_MAX)%Q).
  { change 0%Q with (inject_Z 0). rewrite <- Zlt_Qlt. lia. }
  destruct (Z.ltb_spec r RAND_MAX) as [Hlt|Hge].
  - apply negb_true_iff. apply not_true_is_false. intros H.
    apply Qle_bool_iff in H.
    apply Qle_lt_trans with (z := 1%Q) in H.
    + now apply Qlt_irrefl in H.
    + apply Qlt_shift_div_r; auto. rewrite Qmult_1_l. rewrite <- Zlt_Qlt. lia.
  - apply negb_false_iff, Qle_bool_iff.
    apply Qle_shift_div_l; auto. rewrite Qmult_1_l. rewrite <- Zle_Qle. lia.
Qed.

Section MutationDraws.
Variable RAND_MAX : Z.
Variable rnd : nat -> Z.

(** [Mutate] makes one draw per gene of each row from [ElitismNo] on. *)
Lemma Mutate_run_draws (Population : list bool) (Pm : Q) (ElitismNo m n : Z) :
  0 <= ElitismNo <= m -> m < SIZE_MOD -> 0 <= n < SIZE_MOD ->
  snd (Mutate_run RAND_MAX rnd Population Pm ElitismNo m n) =
  Z.to_nat (n * (m - ElitismNo)).
Proof.
  intros HE Hm Hn. unfold Mutate_run. rewrite for_loop_size_t by lia.
  rewrite Z.sub_0_r.
  assert (H : (fun g s => snd s = Z.to_nat (g * (m - ElitismNo)))
                (0 + Z.of_nat (Z.to_nat n))
                (iterate_from (Z.to_nat n) 0 (mutate_gene RAND_MAX rnd Pm ElitismNo m)
                   (Population, O))).
  { apply iterate_from_ind; [reflexivity|].
    intros g s Hg Hs. unfold mutate_gene. rewrite for_loop_size_t by lia.
    assert (H : (fun i s => snd s = Z.to_nat (g * (m - ElitismNo) + (i - ElitismNo)))
                  (ElitismNo + Z.of_nat (Z.to_nat (m - ElitismNo)))
                  (iterate_from (Z.to_nat (m - ElitismNo)) ElitismNo
                     (mutate_cell RAND_MAX rnd Pm m g) s)).
    { apply iterate_from_ind.
      - rewrite Hs. f_equal. lia.
      - intros i [M pos] Hi Hpos. rewrite mutate_cell_eq. simpl in *.
        assert (0 <= g * (m - ElitismNo)) by nia. lia. }
    simpl in H. rewrite H. f_equal. rewrite Z2Nat.id by lia. lia. }
  simpl in H. rewrite H. f_equal. rewrite Z2Nat.id by lia. reflexivity.
Qed.

End MutationDraws.

(** C4.  Elitism exemption: for an [m] x [n] population and
    [0 <= ElitismNo <= m], every entry of every row [i < ElitismNo] of the
    output of [Mutate] is the entry of the input, whatever [Pm] and whatever
    the draws. *)
Theorem Mutate_elite_rows_unchanged
    (RAND_MAX : Z) (rnd : nat -> Z) (Population : list bool) (Pm : Q)
    (ElitismNo m n : Z) (i gene : Z) :
  0 <= ElitismNo <= m -> m < SIZE_MOD -> 0 <= n < SIZE_MOD ->
  Z.of_nat (length Population) = m * n ->
  0 <= i < ElitismNo -> 0 <= gene < n ->
  load false (Mutate RAND_MAX rnd Population Pm ElitismNo m n) (i + gene * m) =
  load false Population (i + gene * m).
Proof.
  intros HE Hm Hn Hshape Hi Hgene.
  destruct (Mutate_run_inv RAND_MAX rnd Pm Population ElitismNo m n HE Hm Hn Hshape)
    as (_ & _ & Hcells).
  destruct (Hcells gene i Hgene ltac:(lia)) as [_ H].
  apply H. unfold visited. lia.
Qed.

Lemma Mutate_elite_rows_unchanged_witness :
  load false (Mutate 32767 alternating
                [true; false; true; false] (1 # 2) 1 2 2) (0 + 1 * 2) =
  load false [true; false; true; false] (0 + 1 * 2).
Proof.
  apply (Mutate_elite_rows_unchanged 32767 alternating
           [true; false; true; false] (1 # 2) 1 2 2 0 1);
    try reflexivity; unfold SIZE_MOD; lia.
Defined.

(** C5, as amended.  With [Pm = 0] the output of [Mutate] is the input, for
    every [ElitismNo].  With [Pm = 1] a gene of a row [>= ElitismNo] is
    flipped exactly when the draw made for it is below [RAND_MAX]:
    [RandNr = rand() / RAND_MAX] ranges over [0, 1], both ends included, and
    [RandNr < 1] fails for the draw [RAND_MAX].  The two loop counters are
    [int] in the C code: the population is one whose rows and columns they
    can count, [m <= INT_MAX] and [n <= INT_MAX]. *)
Theorem Mutate_Pm_zero_and_one
    (RAND_MAX : Z) (rnd : nat -> Z) (Population : list bool) (ElitismNo m n : Z) :
  0 < RAND_MAX -> (forall k, 0 <= rnd k <= RAND_MAX) ->
  0 <= m <= INT_MAX -> 0 <= n <= INT_MAX ->
  Mutate RAND_MAX rnd Population 0 ElitismNo m n = Population /\
  (0 <= ElitismNo <= m ->
   Z.of_nat (length Population) = m * n ->
   forall gene individual, 0 <= gene < n -> ElitismNo <= individual < m ->
     load false (Mutate RAND_MAX rnd Population 1 ElitismNo m n) (individual + gene * m) =
     if rnd (draw_index ElitismNo m gene individual) <? RAND_MAX
     then negb (load false Population (individual + gene * m))
     else load false Population (individual + gene * m)).
Proof.
  intros HR Hrnd Hmi Hni.
  assert (Hm : m < SIZE_MOD) by (unfold INT_MAX, SIZE_MOD in *; lia).
  assert (Hn : 0 <= n < SIZE_MOD) by (unfold INT_MAX, SIZE_MOD in *; lia).
  split.
  - unfold Mutate, Mutate_run.
    apply for_loop_preserves with (P := fun s => fst s = Population); auto.
    intros gene s Hs. unfold mutate_gene.
    apply for_loop_preserves with (P := fun s => fst s = Population); auto.
    intros individual [M pos] HM. rewrite mutate_cell_eq.
    rewrite triggered_zero; auto. apply Hrnd.
  - intros HE Hshape gene individual Hgene Hind.
    destruct (Mutate_run_inv RAND_MAX rnd 1 Population ElitismNo m n HE Hm Hn Hshape)
      as (_ & _ & Hcells).
    destruct (Hcells gene individual Hgene ltac:(lia)) as [H _].
    unfold Mutate. rewrite H by (unfold visited; lia).
    unfold mutated_gene. now rewrite triggered_one.
Qed.

Lemma Mutate_Pm_zero_and_one_witness :
  Mutate 32767 alternating [true; false; true; false] 0 1 2 2
    = [true; false; true; false] /\
  load false (Mutate 32767 alternating
                [true; false; true; false] 1 1 2 2) (1 + 1 * 2) =
  if alternating (draw_index 1 2 1 1) <? 32767
  then negb (load false [true; false; true; false] (1 + 1 * 2))
  else load false [true; false; true; false] (1 + 1 * 2).
Proof.
  assert (Hrnd : forall k : nat, 0 <= alternating k <= 32767).
  { intros k. unfold alternating. destruct (Nat.even k); lia. }
  assert (Hint : 0 <= 2 <= INT_MAX) by (unfold INT_MAX; lia).
  destruct (Mutate_Pm_zero_and_one 32767 alternating
              [true; false; true; false] 1 2 2 ltac:(lia) Hrnd Hint Hint) as [H0 H1].
  split; [exact H0|].
  apply H1; try reflexivity; lia.
Defined.

(** C5 as stated fails: on the 1 x 1 population [[1]] with [Pm = 1],
    [ElitismNo = 0] and a first draw equal to [RAND_MAX = 32767], the only
    gene is not flipped. *)
Lemma Mutate_Pm_one_keeps_gene_on_RAND_MAX :
  load false (Mutate 32767 (fun _ => 32767) [true] 1 0 1 1) (0 + 0 * 1) <>
  negb (load false [true] (0 + 0 * 1)).
Proof. vm_compute. discriminate. Qed.

(** The first example of the specification: with [Pm = 0] the 4 x 3
    population comes back as it is. *)
Example Mutate_end_to_end :
  Mutate 32767 alternating
    [true; false; true; false; false; true; true; false; true; false; true; false]
    0 0 4 3 =
  [true; false; true; false; false; true; true; false; true; false; true; false].
Proof. vm_compute. reflexivity. Qed.

(** ** NpointCrossover.c: cut points *)

Lemma cmpfunc_le (a b : Z) :
  int_index a -> int_index b -> (cmpfunc a b <=? 0) = (a <=? b).
Proof.
  unfold int_index, cmpfunc. intros Ha Hb.
  destruct (Z.leb_spec a b) as [Hle|Hgt].
  - destruct (Z.eq_dec a b) as [->|Hne].
    + rewrite Z.sub_diag. reflexivity.
    + rewrite to_int_small_neg by lia. apply Z.leb_le. lia.
  - rewrite to_int_small by lia. apply Z.leb_gt. lia.
Qed.

Lemma qsort_insert_perm (x : Z) (l : list Z) : Permutation (qsort_insert x l) (x :: l).
Proof.
  induction l as [|y l IH]; simpl; auto.
  destruct (cmpfunc x y <=? 0); auto.
  rewrite IH. apply perm_swap.
Qed.

Lemma qsort_perm (l : list Z) : Permutation (qsort l) l.
Proof.
  induction l as [|x l IH]; simpl; auto.
  rewrite qsort_insert_perm. now constructor.
Qed.

Lemma qsort_insert_sorted (x : Z) (l : list Z) :
  int_index x -> Forall int_index l ->
  StronglySorted Z.le l -> StronglySorted Z.le (qsort_insert x l).
Proof.
  intros Hx. induction l as [|y l IH]; intros Hl Hs; simpl.
  - repeat constructor.
  - inversion Hl as [|? ? Hy Hl']; subst. inversion Hs as [|? ? Hs' Hall]; subst.
    rewrite cmpfunc_le by auto.
    destruct (Z.leb_spec x y) as [Hle|Hgt].
    + constructor; auto. constructor; auto.
      eapply Forall_impl; [|exact Hall]. simpl. intros; lia.
    + constructor; auto.
      apply (Permutation_Forall (Permutation_sym (qsort_insert_perm x l))).
      constructor; auto. lia.
Qed.

Lemma qsort_sorted (l : list Z) :
  Forall int_index l -> StronglySorted Z.le (qsort l).
Proof.
  induction l as [|x l IH]; intros Hl; simpl.
  - constructor.
  - inversion Hl; subst. apply qsort_insert_sorted; auto.
    apply (Permutation_Forall (Permutation_sym (qsort_perm l))). assumption.
Qed.

(** A sorted array of pairwise distinct values is strictly ascending. *)
Lemma sorted_NoDup_strict (l : list Z) :
  StronglySorted Z.le l -> NoDup l -> StronglySorted Z.lt l.
Proof.
  induction 1 as [|x l Hs IH Hall]; intros Hnd; constructor.
  - apply IH. now inversion Hnd.
  - inversion Hnd as [|? ? Hnin _]; subst.
    rewrite Forall_forall in *. intros y Hy.
    specialize (Hall y Hy). assert (x <> y) by (intros ->; contradiction). lia.
Qed.

Lemma sorted_nth_lt (l : list Z) :
  StronglySorted Z.lt l ->
  forall i j, (i < j < length l)%nat -> nth i l 0 < nth j l 0.
Proof.
  induction 1 as [|x l Hs IH Hall]; intros i j Hij; simpl in Hij; [lia|].
  destruct j as [|j]; [lia|]. destruct i as [|i]; simpl.
  - rewrite Forall_forall in Hall. apply Hall. apply nth_In. lia.
  - apply IH. lia.
Qed.

Section CrossoverLoops.
Variable RAND_MAX : Z.
Variable rnd : nat -> Z.

Lemma pick_points_eq (n N : Z) (fuel : nat) :
  forall i CrossOverPoints pos,
    pick_points RAND_MAX rnd fuel n N i CrossOverPoints pos =
    draw_distinct RAND_MAX rnd fuel 0 (n - 1) N i CrossOverPoints pos.
Proof.
  induction fuel as [|fuel IH]; intros i cps pos; simpl; auto.
  destruct (i <? N); auto.
  fold (already (randr RAND_MAX 0 (n - 1) (rnd pos)) cps).
  destruct (already _ cps); simpl; apply IH.
Qed.

(** The loop for a second parent. *)
Lemma redraw_P2_mono (m P1 : Z) (fuel fuel' : nat) :
  (fuel <= fuel')%nat ->
  forall P2 pos r,
    redraw_P2 RAND_MAX rnd fuel m P1 P2 pos = Some r ->
    redraw_P2 RAND_MAX rnd fuel' m P1 P2 pos = Some r.
Proof.
  revert fuel'. induction fuel as [|fuel IH]; intros fuel' Hle P2 pos r Hrun;
    simpl in Hrun; [discriminate|].
  destruct fuel' as [|fuel']; [lia|]. simpl.
  destruct (P1 =? P2); auto. apply IH; auto. lia.
Qed.


End CrossoverLoops.

Section CrossoverFacts.
Variable RAND_MAX : Z.
Variable rnd : nat -> Z.
Variable junk : Z -> Z.

(** What one trip of the event loop does. *)
Lemma crossover_event_inv fuel Parentpool m n N my GeneratedChild st st' :
  crossover_event RAND_MAX rnd junk fuel Parentpool m n N my GeneratedChild st = Some st' ->
  exists P2 pos1 pts pos2 e,
    let P1 := randr RAND_MAX 0 (m - 1) (rnd (cpos st)) in
    redraw_P2 RAND_MAX rnd fuel m P1 (randr RAND_MAX 0 (m - 1) (rnd (S (cpos st))))
      (S (S (cpos st))) = Some (P2, pos1) /\
    pick_points RAND_MAX rnd fuel n N 0 [] pos1 = Some (pts, pos2) /\
    for_loop (Z.to_nat n) 0 (fun gene => to_size_t gene <? n)
      (assign_gene junk Parentpool m my P1 P2 GeneratedChild (qsort pts))
      (0, Children st, accesses st) = (e, Children st', accesses st') /\
    cpos st' = pos2 /\
    events st' = events st ++ [{| ev_P1 := P1; ev_P2 := P2; ev_points := qsort pts |}].
Proof.
  unfold crossover_event. intros H.
  destruct (redraw_P2 _ _ _ _ _ _ _) as [[P2 pos1]|] eqn:HP2; [|discriminate].
  destruct (pick_points _ _ _ _ _ _ _ _) as [[pts pos2]|] eqn:Hpts; [|discriminate].
  destruct (for_loop _ _ _ _ _) as [[e Ch] acc] eqn:Hloop.
  injection H as <-. simpl.
  exists P2, pos1, pts, pos2, e. auto.
Qed.

Hypothesis RAND_MAX_range : 0 < RAND_MAX <= INT_MAX.
Hypothesis rnd_range : forall k, 0 <= rnd k <= RAND_MAX.

(** The cut points of an event, as handed to the segment assignment. *)
Lemma pick_points_sorted fuel n N pts pos pos' :
  1 <= n <= INT_MAX -> 0 <= N ->
  pick_points RAND_MAX rnd fuel n N 0 [] pos = Some (pts, pos') ->
  Z.of_nat (length (qsort pts)) = N /\
  NoDup (qsort pts) /\
  Forall (fun c => 0 <= c < n) (qsort pts) /\
  StronglySorted Z.lt (qsort pts).
Proof.
  intros Hn HN Hrun. rewrite pick_points_eq in Hrun.
  apply draw_distinct_spec in Hrun; auto; [|constructor].
  destruct Hrun as (Hlen & Hnd & _ & Hdraws).
  assert (Hrange : Forall (fun c => 0 <= c < n) pts).
  { apply Forall_forall. intros c Hc.
    destruct (Hdraws c Hc) as [[]|(q & _ & ->)].
    pose proof (randr_range RAND_MAX RAND_MAX_range 0 (n - 1) (rnd q)
                  ltac:(lia) ltac:(lia) (rnd_range q)). lia. }
  pose proof (qsort_perm pts) as Hperm.
  assert (Hnd' : NoDup (qsort pts)).
  { apply (Permutation_NoDup (Permutation_sym Hperm)); auto. }
  repeat split; auto.
  - rewrite (Permutation_length Hperm). exact Hlen.
  - apply (Permutation_Forall (Permutation_sym Hperm)); auto.
  - apply sorted_NoDup_strict; auto. apply qsort_sorted.
    eapply Forall_impl; [|exact Hrange]. unfold int_index. simpl. intros; lia.
Qed.

End CrossoverFacts.

(** C6.  [Crossover] raises InvalidArgument exactly when [N > n] or
    [N <= 0]; with any other [N] and [my = 0] it returns a matrix of no
    rows, without a crossover event, a draw or an array access. *)
Theorem Crossover_argument_check
    (RAND_MAX : Z) (rnd : nat -> Z) (junk : Z -> Z) (fuel : nat)
    (Parentpool : list bool) (m n N my : Z) :
  0 <= n < SIZE_MOD -> - INT_MAX - 1 <= N <= INT_MAX ->
  (Crossover RAND_MAX rnd junk fuel Parentpool m n N my = InvalidArgument <->
   N > n \/ N <= 0) /\
  (~ (N > n \/ N <= 0) -> my = 0 ->
   Crossover RAND_MAX rnd junk fuel Parentpool m n N my =
   Done {| Children := []; cpos := O; events := []; accesses := [] |}).
Proof.
  intros Hn HN. unfold Crossover.
  destruct (Z.leb_spec N 0) as [Hneg|Hpos].
  - split; [|intros H; exfalso; apply H; lia].
    split; [intros _; lia|intros _].
    destruct (to_size_t N >? n); reflexivity.
  - rewrite to_size_t_small by (unfold INT_MAX, SIZE_MOD in *; lia).
    destruct (Z.gtb_spec N n) as [Hgt|Hle].
    + split; [|intros H; exfalso; apply H; lia].
      split; [intros _; lia|reflexivity].
    + split.
      * split; [|lia].
        destruct (for_loop_opt _ _ _ _ _); discriminate.
      * intros _ ->. reflexivity.
Qed.

Lemma Crossover_argument_check_witness :
  Crossover 32767 alternating (fun _ => 0) 10 [true; true; false; false] 2 2 3 1
    = InvalidArgument /\
  Crossover 32767 alternating (fun _ => 0) 10 [true; true; false; false] 2 2 1 0
    = Done {| Children := []; cpos := O; events := []; accesses := [] |}.
Proof.
  split.
  - apply (Crossover_argument_check 32767 alternating (fun _ => 0) 10
             [true; true; false; false] 2 2 3 1);
      unfold SIZE_MOD, INT_MAX; lia.
  - apply (Crossover_argument_check 32767 alternating (fun _ => 0) 10
             [true; true; false; false] 2 2 1 0);
      unfold SIZE_MOD, INT_MAX; lia.
Defined.

(** C7.  In every crossover event of a run of [Crossover] that returns, the
    cut points handed to the segment assignment (after the draw and the
    sort) are [N] pairwise distinct column indices in [0, n), in strictly
    ascending order. *)
Theorem Crossover_cut_points_distinct_ascending
    (RAND_MAX : Z) (rnd : nat -> Z) (junk : Z -> Z) (fuel : nat)
    (Parentpool : list bool) (m n N my : Z) (st : cstate) (ev : event) :
  0 < RAND_MAX <= INT_MAX -> (forall k, 0 <= rnd k <= RAND_MAX) ->
  n <= INT_MAX -> N <= INT_MAX ->
  Crossover RAND_MAX rnd junk fuel Parentpool m n N my = Done st ->
  In ev (events st) ->
  Z.of_nat (length (ev_points ev)) = N /\
  NoDup (ev_points ev) /\
  Forall (fun c => 0 <= c < n) (ev_points ev) /\
  StronglySorted Z.lt (ev_points ev).
Proof.
  intros HR Hrnd Hn HN Hrun Hev. unfold Crossover in Hrun.
  destruct (Z.gtb_spec (to_size_t N) n) as [|Hle]; [discriminate|].
  destruct (Z.leb_spec N 0) as [|Hpos]; [discriminate|].
  rewrite to_size_t_small in Hle by (unfold INT_MAX, SIZE_MOD in *; lia).
  destruct (for_loop_opt _ _ _ _ _) as [st'|] eqn:Hloop; [|discriminate].
  injection Hrun as ->.
  apply for_loop_opt_ind with
    (P := fun _ s => Forall (fun ev =>
            Z.of_nat (length (ev_points ev)) = N /\ NoDup (ev_points ev) /\
            Forall (fun c => 0 <= c < n) (ev_points ev) /\
            StronglySorted Z.lt (ev_points ev)) (events s)) in Hloop.
  - destruct Hloop as (_ & _ & Hall & _).
    rewrite Forall_forall in Hall. now apply Hall.
  - constructor.
  - intros i s s' _ _ Hs Hstep.
    apply crossover_event_inv in Hstep.
    destruct Hstep as (P2 & pos1 & pts & pos2 & e & _ & Hpts & _ & _ & Hevs).
    rewrite Hevs. apply Forall_app. split; auto.
    constructor; [|constructor]. simpl.
    apply (pick_points_sorted RAND_MAX rnd HR Hrnd fuel n N pts pos1 pos2); auto; lia.
Qed.

Lemma Crossover_cut_points_distinct_ascending_witness :
  let ev := {| ev_P1 := 1; ev_P2 := 0; ev_points := [1] |} in
  exists st,
    Crossover 32767 alternating (fun _ => 0) 10
      [true; true; false; false] 2 2 1 2 = Done st /\
    In ev (events st) /\
    Z.of_nat (length (ev_points ev)) = 1 /\ NoDup (ev_points ev) /\
    Forall (fun c => 0 <= c < 2) (ev_points ev) /\ StronglySorted Z.lt (ev_points ev).
Proof.
  intros ev. eexists. split; [vm_compute; reflexivity|].
  split; [simpl; auto|].
  eapply (Crossover_cut_points_distinct_ascending 32767
            alternating (fun _ => 0) 10
            [true; true; false; false] 2 2 1 2).
  - unfold INT_MAX. lia.
  - intros k. unfold alternating. destruct (Nat.even k); lia.
  - unfold INT_MAX. lia.
  - unfold INT_MAX. lia.
  - vm_compute. reflexivity.
  - simpl. auto.
Defined.

(** ** NpointCrossover.c: segment assignment *)

Section SegmentIndex.
Variable junk : Z -> Z.
Variable pts : list Z.
Hypothesis pts_sorted : StronglySorted Z.lt pts.

Lemma load_point_inside (e : Z) :
  0 <= e < Z.of_nat (length pts) -> load_point junk pts e = nth (Z.to_nat e) pts 0.
Proof.
  intros He. unfold load_point.
  now replace (in_bounds pts e) with true by (symmetry; apply in_bounds_iff; lia).
Qed.

(** One gene further, while [e] is inside the array. *)
Lemma segment_index_step (gene e : Z) :
  segment_index pts gene e -> e < Z.of_nat (length pts) ->
  segment_index pts (gene + 1)
    (if gene >? load_point junk pts e then e + 1 else e).
Proof.
  intros (He & Hlow & Hhigh) Hin. rewrite load_point_inside by lia.
  pose proof (Hhigh e ltac:(lia)) as Hge.
  destruct (Z.gtb_spec gene (nth (Z.to_nat e) pts 0)) as [Hgt|Hle].
  - split; [lia|]. split.
    + intros i Hi. destruct (Z.eq_dec i e) as [->|]; [lia|].
      specialize (Hlow i ltac:(lia)). lia.
    + intros i Hi.
      pose proof (sorted_nth_lt pts pts_sorted (Z.to_nat e) (Z.to_nat i) ltac:(lia)). lia.
  - split; [lia|]. split.
    + intros i Hi. specialize (Hlow i Hi). lia.
    + intros i Hi. destruct (Z.eq_dec i e) as [->|]; [lia|].
      pose proof (sorted_nth_lt pts pts_sorted (Z.to_nat e) (Z.to_nat i) ltac:(lia)). lia.
Qed.

End SegmentIndex.

Section GeneLoop.
Variable junk : Z -> Z.

(** The body of the gene loop inside the event loop, where the guard of the
    sibling store holds. *)
Lemma assign_gene_eq Parentpool m my P1 P2 GeneratedChild pts gene e Ch acc :
  GeneratedChild < my ->
  assign_gene junk Parentpool m my P1 P2 GeneratedChild pts gene (e, Ch, acc) =
  let e' := if gene >? load_point junk pts e then e + 1 else e in
  let Pa := if Z.rem e' 2 =? 0 then P1 else P2 in
  let Pb := if Z.rem e' 2 =? 0 then P2 else P1 in
  (e',
   store (store Ch (GeneratedChild + gene * my) (load false Parentpool (Pa + gene * m)))
         (GeneratedChild + 1 + gene * my) (load false Parentpool (Pb + gene * m)),
   StoreChild (GeneratedChild + 1) gene :: StoreChild GeneratedChild gene ::
   LoadPoint e :: acc).
Proof.
  intros Hlt. unfold assign_gene.
  destruct (Z.ltb_spec GeneratedChild my); [|lia].
  cbv zeta. destruct (Z.rem _ 2 =? 0); reflexivity.
Qed.

(** Inside the event loop the guard of the sibling store holds: each gene
    adds one load and two stores to the record. *)
Lemma assign_gene_accesses Parentpool m my P1 P2 GeneratedChild pts gene e Ch acc :
  GeneratedChild < my ->
  exists e' Ch',
    assign_gene junk Parentpool m my P1 P2 GeneratedChild pts gene (e, Ch, acc) =
      (e', Ch',
       StoreChild (GeneratedChild + 1) gene :: StoreChild GeneratedChild gene ::
       LoadPoint e :: acc) /\
    length Ch' = length Ch.
Proof.
  intros Hlt. unfold assign_gene.
  destruct (Z.ltb_spec GeneratedChild my); [|lia].
  destruct (Z.rem _ 2 =? 0); eexists; eexists; (split; [reflexivity|]);
    now rewrite !length_store.
Qed.

(** The record of accesses only grows. *)
Lemma assign_genes_keep_accesses Parentpool m my P1 P2 GeneratedChild pts count cond :
  forall lo s a,
    In a (snd s) ->
    In a (snd (for_loop count lo cond
                 (assign_gene junk Parentpool m my P1 P2 GeneratedChild pts) s)).
Proof.
  induction count as [|c IH]; intros lo s a Ha; simpl; auto.
  destruct (cond lo); auto. apply IH.
  destruct s as [[e Ch] acc]. unfold assign_gene.
  destruct (Z.rem _ 2 =? 0); destruct (GeneratedChild <? my); simpl in *; auto.
Qed.

Lemma assign_genes_last_store Parentpool m n my P1 P2 GeneratedChild pts Ch acc e' Ch' acc' :
  GeneratedChild < my -> 1 <= n < SIZE_MOD ->
  for_loop (Z.to_nat n) 0 (fun gene => to_size_t gene <? n)
    (assign_gene junk Parentpool m my P1 P2 GeneratedChild pts) (0, Ch, acc) = (e', Ch', acc') ->
  length Ch' = length Ch /\ In (StoreChild (GeneratedChild + 1) (n - 1)) acc'.
Proof.
  intros Hlt Hn. rewrite for_loop_size_t by lia. rewrite Z.sub_0_r. intros Hrun.
  assert (H : (fun g (s : Z * list bool * list access) =>
                 length (snd (fst s)) = length Ch /\
                 (g = 0 \/ In (StoreChild (GeneratedChild + 1) (g - 1)) (snd s)))
                (0 + Z.of_nat (Z.to_nat n))
                (iterate_from (Z.to_nat n) 0
                   (assign_gene junk Parentpool m my P1 P2 GeneratedChild pts) (0, Ch, acc))).
  { apply iterate_from_ind; [simpl; auto|].
    intros g [[e C] a] Hg [Hlen _].
    destruct (assign_gene_accesses Parentpool m my P1 P2 GeneratedChild pts g e C a Hlt)
      as (e1 & C1 & -> & Hlen1).
    simpl in *. split; [congruence|]. right. left. f_equal. lia. }
  rewrite Hrun, Z.add_0_l, Z2Nat.id in H by lia. simpl in H.
  destruct H as [Hlen [H|H]]; [lia|auto].
Qed.

(** In the last event the sibling store of gene 0 goes to index [my], which
    is row 0 of column 1, and no later store of the event goes there. *)
Lemma assign_genes_stray_store Parentpool m n my P1 P2 pts Ch acc :
  2 <= my -> 2 <= n < SIZE_MOD ->
  Forall (fun c => 0 <= c) pts -> (0 < length pts)%nat ->
  Z.of_nat (length Ch) = my * n ->
  let Ch' := snd (fst (for_loop (Z.to_nat n) 0 (fun gene => to_size_t gene <? n)
                         (assign_gene junk Parentpool m my P1 P2 (my - 1) pts)
                         (0, Ch, acc))) in
  length Ch' = length Ch /\
  load false Ch' (0 + 1 * my) = load false Parentpool (P2 + 0 * m).
Proof.
  intros Hmy Hn Hpts Hne Hlen. rewrite for_loop_size_t by lia. rewrite Z.sub_0_r.
  assert (H : (fun g (s : Z * list bool * list access) =>
                 length (snd (fst s)) = length Ch /\
                 ((g = 0 /\ fst (fst s) = 0) \/
                  (1 <= g /\ load false (snd (fst s)) (0 + 1 * my) =
                             load false Parentpool (P2 + 0 * m))))
                (0 + Z.of_nat (Z.to_nat n))
                (iterate_from (Z.to_nat n) 0
                   (assign_gene junk Parentpool m my P1 P2 (my - 1) pts) (0, Ch, acc))).
  { apply iterate_from_ind; [simpl; auto|].
    intros g [[e C] a] Hg [HlenC Hcase].
    rewrite assign_gene_eq by lia. cbv zeta. simpl fst in *. simpl snd in *.
    split; [now rewrite !length_store|]. right. split; [lia|].
    destruct Hcase as [[-> ->]|[Hg1 Hkept]].
    - assert (He : (0 >? load_point junk pts 0) = false).
      { rewrite load_point_inside by lia.
        rewrite Forall_forall in Hpts.
        specialize (Hpts (nth (Z.to_nat 0) pts 0) ltac:(apply nth_In; lia)).
        rewrite Z.gtb_ltb. apply Z.ltb_ge. lia. }
      rewrite He. simpl (Z.rem 0 2 =? 0). cbv iota.
      replace (my - 1 + 1 + 0 * my) with (0 + 1 * my) by lia.
      apply load_store_same. rewrite in_bounds_store.
      apply in_bounds_iff. rewrite HlenC. nia.
    - rewrite !load_store_other by nia. exact Hkept. }
  rewrite Z.add_0_l, Z2Nat.id in H by lia. simpl in H.
  destruct H as [HlenC [[? _]|[_ H]]]; [lia|]. auto.
Qed.

End GeneLoop.

(** X18.  Every run that produces a child stores to row [my]: at the last gene of
    the last event the sibling goes to index [my * n], behind the output
    matrix. *)
Lemma Crossover_stores_behind_output
    (RAND_MAX : Z) (rnd : nat -> Z) (junk : Z -> Z) (fuel : nat)
    (Parentpool : list bool) (m n N my : Z) (st : cstate) :
  1 <= my -> 1 <= n < SIZE_MOD ->
  Crossover RAND_MAX rnd junk fuel Parentpool m n N my = Done st ->
  In (StoreChild my (n - 1)) (accesses st) /\
  in_bounds (Children st) (my + (n - 1) * my) = false.
Proof.
  intros Hmy Hn Hrun. unfold Crossover in Hrun.
  destruct (to_size_t N >? n); [discriminate|].
  destruct (N <=? 0); [discriminate|].
  destruct (for_loop_opt _ _ _ _ _) as [st'|] eqn:Hloop; [|discriminate].
  injection Hrun as ->.
  apply for_loop_opt_ind with
    (P := fun i s => length (Children s) = Z.to_nat (my * n) /\
                     (i = 0 \/ In (StoreChild i (n - 1)) (accesses s))) in Hloop.
  - destruct Hloop as (hi & Hhi & (Hlen & Hin) & Hexit).
    rewrite Z2Nat.id in * by lia.
    assert (hi = my).
    { destruct (Z_lt_le_dec hi my) as [Hlt|]; [|lia].
      specialize (Hexit ltac:(lia)). apply Z.ltb_ge in Hexit. lia. }
    subst hi. split; [destruct Hin; [lia|auto]|].
    destruct (in_bounds (Children st) _) eqn:Hb; auto.
    apply in_bounds_iff in Hb. rewrite Hlen in Hb. nia.
  - simpl. rewrite repeat_length. auto.
  - intros i s s' Hi Hcond [Hlen _] Hstep. apply Z.ltb_lt in Hcond.
    apply crossover_event_inv in Hstep.
    destruct Hstep as (P2 & pos1 & pts & pos2 & e & _ & _ & Hgenes & _ & _).
    apply assign_genes_last_store in Hgenes; auto.
    destruct Hgenes as [Hlen' Hin]. split; [congruence|auto].
Qed.

Lemma Crossover_stores_behind_output_witness :
  exists st,
    Crossover 32767 alternating (fun _ => 0) 10
      [true; true; false; false] 2 2 1 1 = Done st /\
    In (StoreChild 1 (2 - 1)) (accesses st) /\
    in_bounds (Children st) (1 + (2 - 1) * 1) = false.
Proof.
  eexists. split; [vm_compute; reflexivity|].
  eapply (Crossover_stores_behind_output 32767 alternating (fun _ => 0) 10
            [true; true; false; false] 2 2 1 1).
  - lia.
  - unfold SIZE_MOD. lia.
  - vm_compute. reflexivity.
Defined.

(** C1 fails on the code.  With [my = 1] on a 2 x 2 pool the only event
    stores its sibling child to row 1, which is no row of the output; at
    gene 1 the store is to index 2 of the 2-entry matrix.  The guard
    [GeneratedChild < my] of the sibling store is the loop condition and
    never fails. *)
Lemma Crossover_sibling_store_outside_rows :
  exists st row gene,
    Crossover 32767 alternating (fun _ => 0) 10
      [true; true; false; false] 2 2 1 1 = Done st /\
    In (StoreChild row gene) (accesses st) /\
    ~ (0 <= row < 1) /\
    in_bounds (Children st) (row + gene * 1) = false.
Proof.
  eexists. exists 1, 1. split; [vm_compute; reflexivity|].
  split; [simpl; auto|]. split; [lia|reflexivity].
Qed.

(** X19.  With two children or more, the gene in column 1 of the first child
    that [Crossover] returns is the column-0 gene of the second parent of
    the last event. *)
Lemma Crossover_first_child_takes_sibling_gene
    (RAND_MAX : Z) (rnd : nat -> Z) (junk : Z -> Z) (fuel : nat)
    (Parentpool : list bool) (m n N my : Z) (st : cstate) :
  0 < RAND_MAX <= INT_MAX -> (forall k, 0 <= rnd k <= RAND_MAX) ->
  2 <= n <= INT_MAX -> N <= INT_MAX -> 2 <= my ->
  Crossover RAND_MAX rnd junk fuel Parentpool m n N my = Done st ->
  exists evs ev,
    events st = evs ++ [ev] /\
    load false (Children st) (0 + 1 * my) = load false Parentpool (ev_P2 ev + 0 * m).
Proof.
  intros HR Hrnd Hn HN Hmy Hrun. unfold Crossover in Hrun.
  destruct (Z.gtb_spec (to_size_t N) n) as [|Hle]; [discriminate|].
  destruct (Z.leb_spec N 0) as [|Hpos]; [discriminate|].
  destruct (for_loop_opt _ _ _ _ _) as [st'|] eqn:Hloop; [|discriminate].
  injection Hrun as ->.
  assert (HnS : 2 <= n < SIZE_MOD) by (unfold INT_MAX, SIZE_MOD in *; lia).
  apply for_loop_opt_ind with
    (P := fun i s =>
       Z.of_nat (length (Children s)) = my * n /\
       (i = my -> exists evs ev,
          events s = evs ++ [ev] /\
          load false (Children s) (0 + 1 * my) =
          load false Parentpool (ev_P2 ev + 0 * m))) in Hloop.
  - destruct Hloop as (hi & Hhi & (_ & Hlast) & Hexit).
    rewrite Z2Nat.id in * by lia. apply Hlast.
    destruct (Z_lt_le_dec hi my) as [Hlt|]; [|lia].
    specialize (Hexit ltac:(lia)). apply Z.ltb_ge in Hexit. lia.
  - simpl. rewrite repeat_length, Z2Nat.id by nia. split; [reflexivity|intros; lia].
  - intros i s s' Hi Hcond [Hlen _] Hstep. apply Z.ltb_lt in Hcond.
    apply crossover_event_inv in Hstep.
    destruct Hstep as (P2 & pos1 & pts & pos2 & e & _ & Hpts & Hgenes & _ & Hevs).
    cbv zeta in Hgenes.
    pose proof Hgenes as Hl. apply assign_genes_last_store in Hl; [|lia|lia].
    destruct Hl as [Hlen' _].
    split; [lia|]. intros Hi'. assert (i = my - 1) by lia. subst i.
    destruct (pick_points_sorted RAND_MAX rnd HR Hrnd fuel n N pts pos1 pos2
                ltac:(lia) ltac:(lia) Hpts) as (HlenP & _ & Hrange & _).
    destruct (assign_genes_stray_store junk Parentpool m n my
                (randr RAND_MAX 0 (m - 1) (rnd (cpos s))) P2 (qsort pts)
                (Children s) (accesses s) Hmy HnS) as [_ Hstray].
    + eapply Forall_impl; [|exact Hrange]. simpl. intros; lia.
    + lia.
    + exact Hlen.
    + rewrite Hgenes in Hstray. simpl in Hstray.
      eexists. eexists. split; [exact Hevs|]. exact Hstray.
Qed.

Lemma Crossover_first_child_takes_sibling_gene_witness :
  exists st,
    Crossover 32767 alternating (fun _ => 0) 10
      [true; true; false; false] 2 2 1 2 = Done st /\
    exists evs ev,
      events st = evs ++ [ev] /\
      load false (Children st) (0 + 1 * 2) =
      load false [true; true; false; false] (ev_P2 ev + 0 * 2).
Proof.
  eexists. split; [vm_compute; reflexivity|].
  eapply (Crossover_first_child_takes_sibling_gene 32767 alternating (fun _ => 0) 10
            [true; true; false; false] 2 2 1 2).
  - unfold INT_MAX. lia.
  - apply alternating_range.
  - unfold INT_MAX. lia.
  - unfold INT_MAX. lia.
  - lia.
  - vm_compute. reflexivity.
Defined.

(** C2 fails on the code.  With [my = 2] the sibling store of the last
    event at gene 0 goes to index [my + 0 * my], which is row 0 of column 1:
    the first child ends with a gene 1 in column 1 although no row of the
    pool has a 1 there. *)
Lemma Crossover_first_child_gene_of_neither_parent :
  exists st,
    Crossover 32767 alternating (fun _ => 0) 10
      [true; true; false; false] 2 2 1 2 = Done st /\
    load false (Children st) (0 + 1 * 2) = true /\
    forall P, 0 <= P < 2 -> load false [true; true; false; false] (P + 1 * 2) = false.
Proof.
  eexists. split; [vm_compute; reflexivity|].
  split; [reflexivity|].
  intros P HP. assert (H : P = 0 \/ P = 1) by lia.
  destruct H as [H|H]; rewrite H; reflexivity.
Qed.

Section LoadBehind.
Variable junk : Z -> Z.

(** When the largest cut point is before column [n - 2], the gene loop
    loads [CrossOverPoints[N]]. *)
Lemma assign_genes_load_behind Parentpool m n my P1 P2 GeneratedChild pts Ch acc :
  GeneratedChild < my -> 0 <= n < SIZE_MOD ->
  StronglySorted Z.lt pts -> Forall (fun c => 0 <= c < n) pts ->
  (0 < length pts)%nat ->
  nth (length pts - 1) pts 0 + 2 < n ->
  In (LoadPoint (Z.of_nat (length pts)))
     (snd (for_loop (Z.to_nat n) 0 (fun gene => to_size_t gene <? n)
             (assign_gene junk Parentpool m my P1 P2 GeneratedChild pts) (0, Ch, acc))).
Proof.
  intros Hlt Hn Hsorted Hrange Hlen Hlast.
  rewrite for_loop_size_t by lia. rewrite Z.sub_0_r.
  set (last := nth (length pts - 1) pts 0) in *.
  assert (Hmax : forall i, (i < length pts)%nat -> nth i pts 0 <= last).
  { intros i Hi. destruct (Nat.eq_dec i (length pts - 1)) as [->|Hne]; [unfold last; lia|].
    pose proof (sorted_nth_lt pts Hsorted i (length pts - 1) ltac:(lia)).
    unfold last. lia. }
  assert (H : (fun g (s : Z * list bool * list access) =>
                 (g <= last + 2 -> segment_index pts g (fst (fst s))) /\
                 (last + 2 < g -> In (LoadPoint (Z.of_nat (length pts))) (snd s)))
                (0 + Z.of_nat (Z.to_nat n))
                (iterate_from (Z.to_nat n) 0
                   (assign_gene junk Parentpool m my P1 P2 GeneratedChild pts) (0, Ch, acc))).
  { apply iterate_from_ind.
    - simpl. split; [intros _|intros H].
      + split; [lia|]. split; [intros; lia|]. intros i Hi.
        rewrite Forall_forall in Hrange.
        specialize (Hrange (nth (Z.to_nat i) pts 0) ltac:(apply nth_In; lia)). lia.
      + pose proof (Hmax O Hlen). rewrite Forall_forall in Hrange.
        specialize (Hrange (nth O pts 0) ltac:(apply nth_In; lia)). lia.
    - intros g [[e C] a] Hg [Hseg Hload].
      rewrite assign_gene_eq by auto. cbv zeta. simpl fst in *. simpl snd in *.
      split.
      + intros Hg'. apply segment_index_step; auto; try (apply Hseg; lia).
        destruct (Hseg ltac:(lia)) as (He & Hlow & _).
        destruct (Z.eq_dec e (Z.of_nat (length pts))) as [->|]; [|lia].
        specialize (Hlow (Z.of_nat (length pts - 1)) ltac:(lia)).
        rewrite Nat2Z.id in Hlow. fold last in Hlow. lia.
      + intros Hg'. destruct (Z.eq_dec g (last + 2)) as [->|Hne].
        * destruct (Hseg ltac:(lia)) as (He & _ & Hhigh).
          destruct (Z.eq_dec e (Z.of_nat (length pts))) as [->|]; [simpl; auto|].
          specialize (Hhigh (Z.of_nat (length pts - 1)) ltac:(lia)).
          rewrite Nat2Z.id in Hhigh. fold last in Hhigh. lia.
        * simpl. right. right. right. apply Hload. lia. }
  rewrite Z.add_0_l, Z2Nat.id in H by lia. apply H. lia.
Qed.

End LoadBehind.

(** X20.  Every event whose largest cut point is before column [n - 2] loads
    [CrossOverPoints[N]], behind the [N] allocated entries. *)
Lemma Crossover_loads_behind_cut_points
    (RAND_MAX : Z) (rnd : nat -> Z) (junk : Z -> Z) (fuel : nat)
    (Parentpool : list bool) (m n N my : Z) (st : cstate) (ev : event) :
  0 < RAND_MAX <= INT_MAX -> (forall k, 0 <= rnd k <= RAND_MAX) ->
  n <= INT_MAX -> N <= INT_MAX ->
  Crossover RAND_MAX rnd junk fuel Parentpool m n N my = Done st ->
  In ev (events st) ->
  nth (Z.to_nat (N - 1)) (ev_points ev) 0 + 2 < n ->
  In (LoadPoint N) (accesses st).
Proof.
  intros HR Hrnd Hn HN Hrun Hev Hlast. unfold Crossover in Hrun.
  destruct (Z.gtb_spec (to_size_t N) n) as [|Hle]; [discriminate|].
  destruct (Z.leb_spec N 0) as [|Hpos]; [discriminate|].
  rewrite to_size_t_small in Hle by (unfold INT_MAX, SIZE_MOD in *; lia).
  destruct (for_loop_opt _ _ _ _ _) as [st'|] eqn:Hloop; [|discriminate].
  injection Hrun as ->.
  apply for_loop_opt_ind with
    (P := fun _ s => forall ev, In ev (events s) ->
            nth (Z.to_nat (N - 1)) (ev_points ev) 0 + 2 < n ->
            In (LoadPoint N) (accesses s)) in Hloop.
  - destruct Hloop as (_ & _ & Hall & _). now apply (Hall ev).
  - simpl. contradiction.
  - intros i s s' _ Hcond Hs Hstep ev' Hev' Hlast'. apply Z.ltb_lt in Hcond.
    apply crossover_event_inv in Hstep.
    destruct Hstep as (P2 & pos1 & pts & pos2 & e & _ & Hpts & Hgenes & _ & Hevs).
    assert (Hacc : accesses s' = snd
              (for_loop (Z.to_nat n) 0 (fun gene => to_size_t gene <? n)
                 (assign_gene junk Parentpool m my
                    (randr RAND_MAX 0 (m - 1) (rnd (cpos s))) P2 i (qsort pts))
                 (0, Children s, accesses s))).
    { cbv zeta in Hgenes. now rewrite Hgenes. }
    rewrite Hacc. rewrite Hevs in Hev'. apply in_app_or in Hev'.
    destruct Hev' as [Hold|[<-|[]]].
    + apply assign_genes_keep_accesses. simpl. now apply (Hs ev').
    + simpl in Hlast'.
      destruct (pick_points_sorted RAND_MAX rnd HR Hrnd fuel n N pts pos1 pos2
                  ltac:(lia) ltac:(lia) Hpts) as (Hlen & _ & Hrange & Hsorted).
      rewrite <- Hlen.
      apply assign_genes_load_behind; auto.
      * unfold INT_MAX, SIZE_MOD in *. lia.
      * lia.
      * replace (length (qsort pts) - 1)%nat with (Z.to_nat (N - 1)) by lia. exact Hlast'.
Qed.

Lemma Crossover_loads_behind_cut_points_witness :
  let ev := {| ev_P1 := 0; ev_P2 := 1; ev_points := [0] |} in
  exists st,
    Crossover 32767 alternating (fun _ => 0) 10
      [true; true; false; false; true; false] 2 3 1 1 = Done st /\
    In ev (events st) /\
    In (LoadPoint 1) (accesses st).
Proof.
  intros ev. eexists. split; [vm_compute; reflexivity|].
  split; [simpl; auto|].
  eapply (Crossover_loads_behind_cut_points 32767 alternating (fun _ => 0) 10
            [true; true; false; false; true; false] 2 3 1 1 _ ev).
  - unfold INT_MAX. lia.
  - apply alternating_range.
  - unfold INT_MAX. lia.
  - unfold INT_MAX. lia.
  - vm_compute. reflexivity.
  - simpl. auto.
  - simpl. lia.
Defined.

(** C10 fails on the code.  With [n = 3], [N = 1] and the cut point 0, the
    segment index is 1 after gene 1, and gene 2 compares with
    [CrossOverPoints[1]], behind the one allocated entry. *)
Lemma Crossover_cut_point_load_outside :
  exists st,
    Crossover 32767 alternating (fun _ => 0) 10
      [true; true; false; false; true; false] 2 3 1 1 = Done st /\
    events st = [{| ev_P1 := 0; ev_P2 := 1; ev_points := [0] |}] /\
    In (LoadPoint 1) (accesses st).
Proof.
  eexists. split; [vm_compute; reflexivity|].
  split; [reflexivity|]. simpl. auto.
Qed.

(** ** TournamentSelection.c *)

Section SelectLoops.
Variable RAND_MAX : Z.
Variable rnd : nat -> Z.
Variable F : Type.
Variable Fzero : F.

Lemma pick_contenders_eq (Fitness : list F) (Eliterows m k : Z) (fuel : nat) :
  forall Contender ContenderList pos,
    pick_contenders RAND_MAX rnd F Fzero fuel Fitness Eliterows m k Contender
      ContenderList (map (load Fzero Fitness) ContenderList) pos =
    match draw_distinct RAND_MAX rnd fuel Eliterows (m - 1) k Contender ContenderList pos with
    | Some (cl, pos') => Some (cl, map (load Fzero Fitness) cl, pos')
    | None => None
    end.
Proof.
  induction fuel as [|fuel IH]; intros i cl pos; simpl; auto.
  destruct (i <? k); auto.
  fold (already (randr RAND_MAX Eliterows (m - 1) (rnd pos)) cl).
  destruct (already _ cl); simpl.
  - apply IH.
  - rewrite <- IH. now rewrite map_app.
Qed.

Lemma pick_contenders_start Fitness Eliterows m k fuel pos :
  pick_contenders RAND_MAX rnd F Fzero fuel Fitness Eliterows m k 0 [] [] pos =
  match draw_distinct RAND_MAX rnd fuel Eliterows (m - 1) k 0 [] pos with
  | Some (cl, pos') => Some (cl, map (load Fzero Fitness) cl, pos')
  | None => None
  end.
Proof.
  exact (pick_contenders_eq Fitness Eliterows m k fuel 0 [] pos).
Qed.

End SelectLoops.

Section SelectFacts.
Variable RAND_MAX : Z.
Variable rnd : nat -> Z.
Variable F : Type.
Variable gtb : F -> F -> bool.
Variable Fzero : F.


(** What one trip of the tournament loop does. *)
Lemma tournament_inv fuel k Fitness Population NoSurvivors Eliterows m n t st st' :
  tournament RAND_MAX rnd F gtb Fzero fuel k Fitness Population NoSurvivors Eliterows m n t st = Some st' ->
  exists cl,
    draw_distinct RAND_MAX rnd fuel Eliterows (m - 1) k 0 [] (spos st) = Some (cl, spos st') /\
    tours st' = tours st ++ [cl] /\
    for_loop (Z.to_nat k) 0 (fun row => row <? k)
      (judge F gtb Fzero cl (map (load Fzero Fitness) cl)) (Winner st, WinnerIndex st) =
      (Winner st', WinnerIndex st') /\
    SurvivorFitness st' = store (SurvivorFitness st) t (Winner st') /\
    Survivors st' =
      for_loop (Z.to_nat n) 0 (fun col => to_size_t col <? n)
        (fun col Sv => store Sv (t + NoSurvivors * col)
                         (load false Population (WinnerIndex st' + m * col)))
        (Survivors st).
Proof.
  unfold tournament. intros H.
  pose proof (pick_contenders_eq RAND_MAX rnd F Fzero Fitness Eliterows m k fuel 0 [] (spos st))
    as Heq.
  simpl in Heq. rewrite Heq in H. clear Heq.
  destruct (draw_distinct _ _ _ _ _ _ _ _ _) as [[cl pos]|]; [|discriminate].
  destruct (for_loop _ _ _ _ (Winner st, WinnerIndex st)) as [W WI] eqn:Hj.
  injection H as <-. simpl. exists cl. auto.
Qed.

(** The copy of the winner's row into row [t] of [Survivors]. *)
Lemma copy_row Population NoSurvivors m n t WI Sv :
  0 <= t < NoSurvivors -> 0 <= n < SIZE_MOD ->
  Z.of_nat (length Sv) = NoSurvivors * n ->
  let Sv' := for_loop (Z.to_nat n) 0 (fun col => to_size_t col <? n)
               (fun col Sv => store Sv (t + NoSurvivors * col)
                                (load false Population (WI + m * col))) Sv in
  length Sv' = length Sv /\
  (forall col, 0 <= col < n ->
     load false Sv' (t + NoSurvivors * col) = load false Population (WI + m * col)) /\
  (forall t' col, 0 <= t' < NoSurvivors -> t' <> t ->
     load false Sv' (t' + NoSurvivors * col) = load false Sv (t' + NoSurvivors * col)).
Proof.
  intros Ht Hn Hlen. rewrite for_loop_size_t by lia. rewrite Z.sub_0_r.
  set (body := fun col Sv => _).
  assert (H : (fun c S' =>
            length S' = length Sv /\
            (forall col, 0 <= col < c ->
               load false S' (t + NoSurvivors * col) = load false Population (WI + m * col)) /\
            (forall t' col, 0 <= t' < NoSurvivors -> t' <> t ->
               load false S' (t' + NoSurvivors * col) = load false Sv (t' + NoSurvivors * col)))
           (0 + Z.of_nat (Z.to_nat n)) (iterate_from (Z.to_nat n) 0 body Sv)).
  { apply iterate_from_ind.
    - split; [|split]; auto. intros; lia.
    - intros c S' Hc (Hl & Hdone & Hothers). unfold body.
      split; [|split].
      + now rewrite length_store.
      + intros col Hcol. destruct (Z.eq_dec col c) as [->|Hne].
        * apply load_store_same. apply in_bounds_iff. rewrite Hl. nia.
        * rewrite load_store_other by nia. apply Hdone. lia.
      + intros t' col Ht' Hne. rewrite load_store_other; auto.
        intros Heq. apply Hne.
        assert (c = col) by nia. subst. lia. }
  rewrite Z.add_0_l, Z2Nat.id in H by lia. exact H.
Qed.

(** [gtb] orders the fitness values: a strict weak order, as [>] is on the
    real values of a fitness vector. *)
Hypothesis gtb_irrefl : forall a, gtb a a = false.
Hypothesis gtb_trans : forall a b c, gtb a b = true -> gtb b c = true -> gtb a c = true.
Hypothesis gtb_neg_trans :
  forall a b c, gtb a b = false -> gtb b c = false -> gtb a c = false.

(** The winner loop. *)
Lemma judge_winner Fitness cl k W0 WI0 :
  1 <= k -> Z.of_nat (length cl) = k ->
  exists w,
    for_loop (Z.to_nat k) 0 (fun row => row <? k)
      (judge F gtb Fzero cl (map (load Fzero Fitness) cl)) (W0, WI0) =
      (load Fzero Fitness (load 0 cl w), load 0 cl w) /\
    tournament_winner gtb (load Fzero Fitness) cl k w.
Proof.
  intros Hk Hlen. rewrite for_loop_int.
  set (fit := load Fzero Fitness).
  assert (H : (fun r s =>
            r = 0 \/
            exists w, s = (fit (load 0 cl w), load 0 cl w) /\
                      tournament_winner gtb fit cl r w)
           (0 + Z.of_nat (Z.to_nat k))
           (iterate_from (Z.to_nat k) 0 (judge F gtb Fzero cl (map fit cl)) (W0, WI0))).
  { apply iterate_from_ind; [now left|].
    intros r [W WI] Hr Hinv. right.
    assert (Hb : in_bounds cl r = true) by (apply in_bounds_iff; lia).
    unfold judge. rewrite (load_map fit 0 Fzero cl r Hb).
    destruct (Z.eqb_spec r 0) as [->|Hnz].
    - exists 0. split; auto. unfold tournament_winner.
      split; [lia|]. split; intros j Hj; [|lia].
      replace j with 0 by lia. apply gtb_irrefl.
    - destruct Hinv as [|(w & Hs & Hw & Hmax & Hfirst)]; [lia|].
      injection Hs as -> ->.
      destruct (gtb (fit (load 0 cl r)) (fit (load 0 cl w))) eqn:Hgt.
      + exists r. split; auto. unfold tournament_winner.
        split; [lia|]. split; intros j Hj.
        * destruct (Z.eq_dec j r) as [->|Hne]; [apply gtb_irrefl|].
          specialize (Hmax j ltac:(lia)).
          destruct (gtb (fit (load 0 cl j)) (fit (load 0 cl r))) eqn:Hjr; auto.
          rewrite (gtb_trans _ _ _ Hjr Hgt) in Hmax. discriminate.
        * specialize (Hmax j ltac:(lia)).
          destruct (gtb (fit (load 0 cl r)) (fit (load 0 cl j))) eqn:Hrj; auto.
          rewrite (gtb_neg_trans _ _ _ Hrj Hmax) in Hgt. discriminate.
      + exists w. split; auto. unfold tournament_winner.
        split; [lia|]. split; auto. intros j Hj.
        destruct (Z.eq_dec j r) as [->|Hne]; auto. apply Hmax. lia. }
  rewrite Z.add_0_l, Z2Nat.id in H by lia.
  destruct H as [|(w & Hs & Hw)]; [lia|]. exists w. auto.
Qed.

End SelectFacts.

(** C8.  In every tournament of a run of [Select] that returns, under the
    precondition [1 <= k <= m - Eliterows], the [k] contender row indices
    are pairwise distinct and lie in [Eliterows, m): none of them is an
    elite row. *)
Theorem Select_contenders_distinct_non_elite
    (RAND_MAX : Z) (rnd : nat -> Z) (F : Type) (gtb : F -> F -> bool) (Fzero : F)
    (fuel : nat) (k : Z) (Fitness : list F) (Population : list bool)
    (NoSurvivors Eliterows m n : Z) (Winner0 : F) (WinnerIndex0 : Z)
    (st : sstate F) (cl : list Z) :
  0 < RAND_MAX <= INT_MAX -> (forall q, 0 <= rnd q <= RAND_MAX) ->
  0 <= Eliterows -> 1 <= k <= m - Eliterows -> m <= INT_MAX ->
  Select RAND_MAX rnd F gtb Fzero fuel k Fitness Population NoSurvivors Eliterows m n
    Winner0 WinnerIndex0 = Done st ->
  In cl (tours st) ->
  Z.of_nat (length cl) = k /\ NoDup cl /\ Forall (fun c => Eliterows <= c < m) cl.
Proof.
  intros HR Hrnd HE Hk Hm Hrun Hcl. unfold Select, TourSel in Hrun.
  destruct (for_loop_opt _ _ _ _ _) as [st'|] eqn:Hloop; [|discriminate].
  injection Hrun as ->.
  apply for_loop_opt_ind with
    (P := fun _ s => Forall (fun cl =>
            Z.of_nat (length cl) = k /\ NoDup cl /\
            Forall (fun c => Eliterows <= c < m) cl) (tours s)) in Hloop.
  - destruct Hloop as (_ & _ & Hall & _).
    rewrite Forall_forall in Hall. now apply Hall.
  - constructor.
  - intros t s s' _ _ Hs Hstep.
    apply tournament_inv in Hstep.
    destruct Hstep as (cl' & Hdraw & Htours & _).
    rewrite Htours. apply Forall_app. split; auto.
    constructor; [|constructor].
    apply draw_distinct_spec in Hdraw; auto; try lia; [|constructor].
    destruct Hdraw as (Hlen & Hnd & _ & Hdraws).
    repeat split; auto.
    apply Forall_forall. intros c Hc.
    destruct (Hdraws c Hc) as [[]|(q & _ & ->)].
    pose proof (randr_range RAND_MAX HR Eliterows (m - 1) (rnd q)
                  ltac:(lia) ltac:(lia) (Hrnd q)). lia.
Qed.

Lemma Select_contenders_distinct_non_elite_witness :
  exists st,
    Select 32767 alternating Z Z.gtb 0 10
      2 [1; 9; 5; 2]
      [true; false; true; false; false; true; true; false; true; false; true; false]
      1 1 4 3 0 0 = Done st /\
    In [1; 3] (tours st) /\
    Z.of_nat (length [1; 3]) = 2 /\ NoDup [1; 3] /\ Forall (fun c => 1 <= c < 4) [1; 3].
Proof.
  eexists. split; [vm_compute; reflexivity|].
  split; [simpl; auto|].
  eapply (Select_contenders_distinct_non_elite 32767
            alternating Z Z.gtb 0 10
            2 [1; 9; 5; 2]
            [true; false; true; false; false; true; true; false; true; false; true; false]
            1 1 4 3 0 0).
  - unfold INT_MAX. lia.
  - intros q. unfold alternating. destruct (Nat.even q); lia.
  - lia.
  - lia.
  - unfold INT_MAX. lia.
  - vm_compute. reflexivity.
  - simpl. auto.
Defined.

(** C3.  For every tournament [t] of a run of [Select] that returns, with
    [cl] the contenders in the order of their draw: a contender [w] of [cl]
    is such that no contender is fitter and all the contenders drawn before
    it are strictly less fit, [SurvivorFitness[t]] is its fitness, and row
    [t] of [Survivors] is its row of [Population].  The column counter and
    the index [Tournament + NoSurvivors * col] are [int] in the C code: the
    output matrix is one that they can address, [n <= INT_MAX] and
    [NoSurvivors * n <= INT_MAX]. *)
Theorem Select_survivor_is_first_fittest_contender
    (RAND_MAX : Z) (rnd : nat -> Z) (F : Type) (gtb : F -> F -> bool) (Fzero : F)
    (fuel : nat) (k : Z) (Fitness : list F) (Population : list bool)
    (NoSurvivors Eliterows m n : Z) (Winner0 : F) (WinnerIndex0 : Z)
    (st : sstate F) (t : Z) :
  (forall a, gtb a a = false) ->
  (forall a b c, gtb a b = true -> gtb b c = true -> gtb a c = true) ->
  (forall a b c, gtb a b = false -> gtb b c = false -> gtb a c = false) ->
  1 <= k -> 0 <= n <= INT_MAX -> NoSurvivors * n <= INT_MAX ->
  Select RAND_MAX rnd F gtb Fzero fuel k Fitness Population NoSurvivors Eliterows m n
    Winner0 WinnerIndex0 = Done st ->
  0 <= t < NoSurvivors ->
  exists cl w,
    nth_error (tours st) (Z.to_nat t) = Some cl /\
    Z.of_nat (length cl) = k /\
    tournament_winner gtb (load Fzero Fitness) cl k w /\
    load Fzero (SurvivorFitness st) t = load Fzero Fitness (load 0 cl w) /\
    forall col, 0 <= col < n ->
      load false (Survivors st) (t + NoSurvivors * col) =
      load false Population (load 0 cl w + m * col).
Proof.
  intros Hirr Htr Hntr Hk Hint _ Hrun Ht.
  assert (Hn : 0 <= n < SIZE_MOD) by (unfold INT_MAX, SIZE_MOD in *; lia).
  unfold Select, TourSel in Hrun.
  destruct (for_loop_opt _ _ _ _ _) as [st'|] eqn:Hloop; [|discriminate].
  injection Hrun as ->.
  apply for_loop_opt_ind with
    (P := fun i s =>
       Z.of_nat (length (tours s)) = i /\
       Z.of_nat (length (SurvivorFitness s)) = NoSurvivors /\
       Z.of_nat (length (Survivors s)) = NoSurvivors * n /\
       forall t, 0 <= t < i ->
         exists cl w,
           nth_error (tours s) (Z.to_nat t) = Some cl /\
           Z.of_nat (length cl) = k /\
           tournament_winner gtb (load Fzero Fitness) cl k w /\
           load Fzero (SurvivorFitness s) t = load Fzero Fitness (load 0 cl w) /\
           forall col, 0 <= col < n ->
             load false (Survivors s) (t + NoSurvivors * col) =
             load false Population (load 0 cl w + m * col)) in Hloop.
  - destruct Hloop as (hi & Hhi & (_ & _ & _ & Hall) & Hexit).
    apply Hall. rewrite Z2Nat.id in * by lia.
    destruct (Z_lt_le_dec hi NoSurvivors) as [Hlt|]; [|lia].
    specialize (Hexit ltac:(lia)). apply Z.ltb_ge in Hexit. lia.
  - simpl. rewrite !repeat_length. repeat split; try lia. nia.
  - intros i s s' Hi Hcond (Htours & HlenF & HlenS & Hprev) Hstep.
    apply Z.ltb_lt in Hcond.
    apply tournament_inv in Hstep.
    destruct Hstep as (cl & Hdraw & Htours' & Hjudge & HSF & HSv).
    apply draw_distinct_spec in Hdraw; auto; try lia; [|constructor].
    destruct Hdraw as (Hlen & _).
    destruct (judge_winner F gtb Fzero Hirr Htr Hntr Fitness cl k (Winner s) (WinnerIndex s)
                Hk Hlen) as (w & Hw & Hwin).
    rewrite Hw in Hjudge. injection Hjudge as HW HWI.
    destruct (copy_row Population NoSurvivors m n i (WinnerIndex s') (Survivors s)
                ltac:(lia) Hn HlenS) as (HlenS' & Hrow & Hothers).
    rewrite <- HSv in HlenS', Hrow, Hothers.
    split; [|split; [|split]].
    + rewrite Htours', length_app. simpl. lia.
    + rewrite HSF, length_store. exact HlenF.
    + rewrite HlenS'. exact HlenS.
    + intros t' Ht'. destruct (Z.eq_dec t' i) as [->|Hne].
      * exists cl, w. split; [|split; [|split; [|split]]]; auto.
        -- rewrite Htours', nth_error_app2 by lia.
           replace (Z.to_nat i - length (tours s))%nat with O by lia. reflexivity.
        -- rewrite HSF, load_store_same by (apply in_bounds_iff; lia). now rewrite <- HW.
        -- intros col Hcol. rewrite Hrow by auto. now rewrite <- HWI.
      * destruct (Hprev t' ltac:(lia)) as (cl' & w' & Hnth & Hlen' & Hwin' & HF' & HS').
        exists cl', w'. split; [|split; [|split; [|split]]]; auto.
        -- rewrite Htours', nth_error_app1 by lia. exact Hnth.
        -- rewrite HSF, load_store_other by auto. exact HF'.
        -- intros col Hcol. rewrite Hothers by (auto; lia). now apply HS'.
Qed.

Lemma Select_survivor_is_first_fittest_contender_witness :
  exists st,
    Select 32767 alternating Z Z.gtb 0 10
      2 [1; 9; 5; 2]
      [true; false; true; false; false; true; true; false; true; false; true; false]
      1 1 4 3 0 0 = Done st /\
    exists cl w,
      nth_error (tours st) (Z.to_nat 0) = Some cl /\
      Z.of_nat (length cl) = 2 /\
      tournament_winner Z.gtb (load 0 [1; 9; 5; 2]) cl 2 w /\
      load 0 (SurvivorFitness st) 0 = load 0 [1; 9; 5; 2] (load 0 cl w) /\
      forall col, 0 <= col < 3 ->
        load false (Survivors st) (0 + 1 * col) =
        load false
          [true; false; true; false; false; true; true; false; true; false; true; false]
          (load 0 cl w + 4 * col).
Proof.
  eexists. split; [vm_compute; reflexivity|].
  eapply (Select_survivor_is_first_fittest_contender 32767
            alternating Z Z.gtb 0 10
            2 [1; 9; 5; 2]
            [true; false; true; false; false; true; true; false; true; false; true; false]
            1 1 4 3 0 0).
  - intros a. rewrite Z.gtb_ltb. apply Z.ltb_irrefl.
  - intros a b c. rewrite !Z.gtb_ltb, !Z.ltb_lt. lia.
  - intros a b c. rewrite !Z.gtb_ltb, !Z.ltb_ge. lia.
  - lia.
  - unfold INT_MAX. lia.
  - unfold INT_MAX. lia.
  - vm_compute. reflexivity.
  - lia.
Defined.

(** The end-to-end example of the specification: contenders 1 and 3, drawn
    in this order from a population of four, give row 1 and fitness 0.9
    (fitness values in tenths). *)
Example Select_end_to_end :
  exists st,
    Select 32767 (fun q => if Nat.eqb q 0 then 8192 else 32767) Z Z.gtb 0 10
      2 [1; 9; 5; 2]
      [true; false; true; false; false; true; true; false; true; false; true; false]
      1 0 4 3 0 0 = Done st /\
    tours st = [[1; 3]] /\
    SurvivorFitness st = [9] /\
    Survivors st = [false; true; false].
Proof. eexists. split; [vm_compute; reflexivity|]. repeat split. Qed.

(** ** Termination *)

(** Loops on fuel alone. *)

Section LoopsOnFuel.
Context {S : Type}.
Variable cond : Z -> bool.





End LoopsOnFuel.

Section MutateReturns.
Variable RAND_MAX : Z.
Variable rnd : nat -> Z.



End MutateReturns.



Section TournamentsReturn.
Variable RAND_MAX : Z.
Variable rnd : nat -> Z.
Variable F : Type.
Variable gtb : F -> F -> bool.
Variable Fzero : F.



End TournamentsReturn.

Section SelectReturns.
Variable RAND_MAX : Z.
Variable rnd : nat -> Z.
Variable F : Type.
Variable gtb : F -> F -> bool.
Variable Fzero : F.



End SelectReturns.




(** X21.  On a pool of a single row both parents are row 0 at every draw, and
    [Crossover] asked for a child does not return, whatever the stream. *)
Lemma Crossover_single_parent_never_returns
    (RAND_MAX : Z) (rnd : nat -> Z) (junk : Z -> Z) (fuel : nat)
    (Parentpool : list bool) (n N my : Z) (st : cstate) :
  0 < RAND_MAX <= INT_MAX -> (forall k, 0 <= rnd k <= RAND_MAX) ->
  1 <= my ->
  Crossover RAND_MAX rnd junk fuel Parentpool 1 n N my <> Done st.
Proof.
  intros HR Hrnd Hmy.
  assert (Hzero : forall q, randr RAND_MAX 0 (1 - 1) (rnd q) = 0).
  { intros q.
    pose proof (randr_range RAND_MAX HR 0 (1 - 1) (rnd q)
                  ltac:(lia) ltac:(unfold INT_MAX; lia) (Hrnd q)). lia. }
  assert (Hloop : forall f pos, redraw_P2 RAND_MAX rnd f 1 0 0 pos = None).
  { induction f as [|f IH]; intros pos; [reflexivity|].
    cbn [redraw_P2]. rewrite Z.eqb_refl, Hzero. apply IH. }
  unfold Crossover.
  destruct (to_size_t N >? n); [discriminate|].
  destruct (N <=? 0); [discriminate|].
  destruct (Z.to_nat my) as [|c] eqn:Hc; [lia|].
  cbn [for_loop_opt].
  destruct (Z.ltb_spec 0 my); [|lia].
  unfold crossover_event. rewrite !Hzero, Hloop. discriminate.
Qed.

Lemma Crossover_single_parent_never_returns_witness :
  Crossover 32767 alternating (fun _ => 0) 10 [true; false] 1 2 1 1 <>
  Done {| Children := []; cpos := O; events := []; accesses := [] |}.
Proof.
  apply Crossover_single_parent_never_returns;
    try apply alternating_range; unfold INT_MAX; lia.
Defined.

(* ================================================================== *)
(** * Part IV: further properties of the three operators               *)
(* ================================================================== *)

(** ** BitflipMutation.c *)

(** The stores of [Mutate] keep the number of entries. *)
Lemma Mutate_length
    (RAND_MAX : Z) (rnd : nat -> Z) (Population : list bool) (Pm : Q)
    (ElitismNo m n : Z) :
  length (Mutate RAND_MAX rnd Population Pm ElitismNo m n) = length Population.
Proof.
  unfold Mutate, Mutate_run.
  apply for_loop_preserves with (P := fun s => length (fst s) = length Population); auto.
  intros gene s Hs. unfold mutate_gene.
  apply for_loop_preserves with (P := fun s => length (fst s) = length Population); auto.
  intros individual [M pos] HM. rewrite mutate_cell_eq. simpl in *.
  destruct (triggered _ _ _); auto. now rewrite length_store.
Qed.

(** X2.  Every gene of a row from [ElitismNo] on is decided by a draw of
    its own, the draw number
    [gene * (m - ElitismNo) + (individual - ElitismNo)] of the call: two
    streams of draws that agree at that position give the gene the same
    value, whatever they hold elsewhere.  The loop counters being [int],
    [m <= INT_MAX] and [n <= INT_MAX]. *)
Theorem Mutate_gene_decided_by_its_own_draw
    (RAND_MAX : Z) (rnd rnd' : nat -> Z) (Population : list bool) (Pm : Q)
    (ElitismNo m n : Z) (gene individual : Z) :
  0 <= ElitismNo <= m -> m <= INT_MAX -> 0 <= n <= INT_MAX ->
  Z.of_nat (length Population) = m * n ->
  0 <= gene < n -> ElitismNo <= individual < m ->
  rnd (draw_index ElitismNo m gene individual) =
  rnd' (draw_index ElitismNo m gene individual) ->
  load false (Mutate RAND_MAX rnd Population Pm ElitismNo m n) (individual + gene * m) =
  load false (Mutate RAND_MAX rnd' Population Pm ElitismNo m n) (individual + gene * m).
Proof.
  intros HE Hmi Hni Hshape Hgene Hind Hsame.
  assert (Hm : m < SIZE_MOD) by (unfold INT_MAX, SIZE_MOD in *; lia).
  assert (Hn : 0 <= n < SIZE_MOD) by (unfold INT_MAX, SIZE_MOD in *; lia).
  destruct (Mutate_run_inv RAND_MAX rnd Pm Population ElitismNo m n HE Hm Hn Hshape)
    as (_ & _ & Hcells).
  destruct (Mutate_run_inv RAND_MAX rnd' Pm Population ElitismNo m n HE Hm Hn Hshape)
    as (_ & _ & Hcells').
  destruct (Hcells gene individual Hgene ltac:(lia)) as [H _].
  destruct (Hcells' gene individual Hgene ltac:(lia)) as [H' _].
  unfold Mutate. rewrite H, H' by (unfold visited; lia).
  unfold mutated_gene. now rewrite Hsame.
Qed.

Lemma Mutate_gene_decided_by_its_own_draw_witness :
  load false (Mutate 32767 alternating [true; false; true; false] (1 # 2) 0 2 2)
    (1 + 1 * 2) =
  load false (Mutate 32767 (fun _ => 32767) [true; false; true; false] (1 # 2) 0 2 2)
    (1 + 1 * 2).
Proof.
  apply (Mutate_gene_decided_by_its_own_draw 32767 alternating (fun _ => 32767)
           [true; false; true; false] (1 # 2) 0 2 2 1 1);
    try reflexivity; unfold INT_MAX; lia.
Defined.

(** X3.  An [ElitismNo] outside of [0, m) mutates nobody: from [m] on the
    row loop has no trip, and a negative one, converted to [size_t] by the
    comparison [individual < m], is not below [m] either.  The output is
    the input and no draw is made. *)
Theorem Mutate_ElitismNo_out_of_range
    (RAND_MAX : Z) (rnd : nat -> Z) (Population : list bool) (Pm : Q)
    (ElitismNo m n : Z) :
  0 <= m <= SIZE_MOD - INT_MAX - 1 ->
  - INT_MAX - 1 <= ElitismNo <= INT_MAX ->
  ElitismNo < 0 \/ m <= ElitismNo ->
  Mutate_run RAND_MAX rnd Population Pm ElitismNo m n = (Population, O).
Proof.
  intros Hm HE Hout. unfold Mutate_run.
  apply for_loop_preserves with (P := fun s => s = (Population, O)); auto.
  intros gene s ->. unfold mutate_gene. apply for_loop_none.
  apply Z.ltb_ge. destruct Hout as [Hneg|Hge].
  - pose proof (to_size_t_negative ElitismNo ltac:(lia)). lia.
  - rewrite to_size_t_small; [lia|]. unfold INT_MAX, SIZE_MOD in *. lia.
Qed.

Lemma Mutate_ElitismNo_out_of_range_witness :
  Mutate_run 32767 alternating [true; false; true; false] 1 (-1) 2 2 =
  ([true; false; true; false], O).
Proof.
  apply (Mutate_ElitismNo_out_of_range 32767 alternating
           [true; false; true; false] 1 (-1) 2 2);
    unfold SIZE_MOD, INT_MAX; lia.
Defined.

(** Every index of an [m] x [n] matrix is the index of a cell. *)
Lemma cell_of_index (m n idx : Z) :
  0 <= idx < m * n -> 0 <= n ->
  exists individual gene,
    0 <= individual < m /\ 0 <= gene < n /\ idx = individual + gene * m.
Proof.
  intros Hidx Hn.
  assert (Hm : 0 < m) by nia.
  exists (idx mod m), (idx / m).
  pose proof (Z.mod_pos_bound idx m Hm).
  pose proof (Z.div_mod idx m ltac:(lia)).
  split; [lia|]. split; [|lia].
  split; [apply Z.div_pos; lia|].
  apply Z.div_lt_upper_bound; lia.
Qed.

(** X4.  Mutating twice on the same stream of draws gives the population
    back: the same genes are flipped both times. *)
Theorem Mutate_twice_same_draws
    (RAND_MAX : Z) (rnd : nat -> Z) (Population : list bool) (Pm : Q)
    (ElitismNo m n : Z) :
  0 <= ElitismNo <= m -> m < SIZE_MOD -> 0 <= n < SIZE_MOD ->
  Z.of_nat (length Population) = m * n ->
  Mutate RAND_MAX rnd (Mutate RAND_MAX rnd Population Pm ElitismNo m n) Pm ElitismNo m n
  = Population.
Proof.
  intros HE Hm Hn Hshape.
  set (Once := Mutate RAND_MAX rnd Population Pm ElitismNo m n).
  assert (Hlen1 : length Once = length Population) by apply Mutate_length.
  assert (Hshape1 : Z.of_nat (length Once) = m * n) by congruence.
  apply load_ext with (d := false).
  - rewrite Mutate_length. exact Hlen1.
  - intros idx Hidx. rewrite Mutate_length, Hshape1 in Hidx.
    destruct (cell_of_index m n idx Hidx ltac:(lia)) as (ind & gene & Hind & Hgene & ->).
    destruct (Mutate_run_inv RAND_MAX rnd Pm Once ElitismNo m n HE Hm Hn Hshape1)
      as (_ & _ & Hc2).
    destruct (Mutate_run_inv RAND_MAX rnd Pm Population ElitismNo m n HE Hm Hn Hshape)
      as (_ & _ & Hc1).
    destruct (Hc2 gene ind Hgene Hind) as [Hv2 Hn2].
    destruct (Hc1 gene ind Hgene Hind) as [Hv1 Hn1].
    fold (Mutate RAND_MAX rnd Once Pm ElitismNo m n) in Hv2, Hn2.
    fold (Mutate RAND_MAX rnd Population Pm ElitismNo m n) in Hv1, Hn1.
    fold Once in Hv1, Hn1.
    destruct (Z_lt_le_dec ind ElitismNo) as [Hlt|Hge].
    + rewrite Hn2, Hn1; auto; unfold visited; lia.
    + rewrite Hv2 by (unfold visited; lia). unfold mutated_gene.
      rewrite Hv1 by (unfold visited; lia). unfold mutated_gene.
      destruct (triggered _ _ _); auto. apply negb_involutive.
Qed.

Lemma Mutate_twice_same_draws_witness :
  Mutate 32767 alternating
    (Mutate 32767 alternating [true; false; true; false] (1 # 2) 0 2 2) (1 # 2) 0 2 2
  = [true; false; true; false].
Proof.
  apply (Mutate_twice_same_draws 32767 alternating [true; false; true; false]
           (1 # 2) 0 2 2); try reflexivity; unfold SIZE_MOD; lia.
Defined.

(** [RandNr < Pm] holds for every draw when [Pm > 1], for none when
    [Pm <= 0]. *)
Lemma triggered_above_one RAND_MAX Pm r :
  0 < RAND_MAX -> 0 <= r <= RAND_MAX -> (1 < Pm)%Q -> triggered RAND_MAX Pm r = true.
Proof.
  intros HR Hr HPm. unfold triggered, RandNr.
  assert (HQ : (0 < inject_Z RAND_MAX)%Q).
  { change 0%Q with (inject_Z 0). rewrite <- Zlt_Qlt. lia. }
  apply negb_true_iff. apply not_true_is_false. intros H.
  apply Qle_bool_iff in H.
  assert (Hle : (inject_Z r / inject_Z RAND_MAX <= 1)%Q).
  { apply Qle_shift_div_r; auto. rewrite Qmult_1_l. rewrite <- Zle_Qle. lia. }
  apply (Qlt_irrefl 1). eapply Qlt_le_trans; [exact HPm|].
  eapply Qle_trans; eauto.
Qed.

Lemma triggered_not_positive RAND_MAX Pm r :
  0 < RAND_MAX -> 0 <= r -> (Pm <= 0)%Q -> triggered RAND_MAX Pm r = false.
Proof.
  intros HR Hr HPm. unfold triggered, RandNr.
  apply negb_false_iff, Qle_bool_iff.
  eapply Qle_trans; [exact HPm|].
  apply Qle_shift_div_l.
  - change 0%Q with (inject_Z 0). rewrite <- Zlt_Qlt. lia.
  - rewrite Qmult_0_l. change 0%Q with (inject_Z 0). rewrite <- Zle_Qle. lia.
Qed.

(** X5.  [Pm] is not checked against [0, 1]: with [Pm > 1] every gene of
    every row from [ElitismNo] on is flipped, for every stream of draws, and
    with [Pm <= 0] the output is the input.  The loop counters being [int],
    [m <= INT_MAX] and [n <= INT_MAX]. *)
Theorem Mutate_Pm_outside_unit_interval
    (RAND_MAX : Z) (rnd : nat -> Z) (Population : list bool) (Pm : Q)
    (ElitismNo m n : Z) :
  0 < RAND_MAX -> (forall k, 0 <= rnd k <= RAND_MAX) ->
  0 <= m <= INT_MAX -> 0 <= n <= INT_MAX ->
  ((Pm <= 0)%Q -> Mutate RAND_MAX rnd Population Pm ElitismNo m n = Population) /\
  ((1 < Pm)%Q ->
   0 <= ElitismNo <= m ->
   Z.of_nat (length Population) = m * n ->
   forall gene individual, 0 <= gene < n -> ElitismNo <= individual < m ->
     load false (Mutate RAND_MAX rnd Population Pm ElitismNo m n) (individual + gene * m) =
     negb (load false Population (individual + gene * m))).
Proof.
  intros HR Hrnd Hmi Hni.
  assert (Hm : m < SIZE_MOD) by (unfold INT_MAX, SIZE_MOD in *; lia).
  assert (Hn : 0 <= n < SIZE_MOD) by (unfold INT_MAX, SIZE_MOD in *; lia).
  split.
  - intros HPm. unfold Mutate, Mutate_run.
    apply for_loop_preserves with (P := fun s => fst s = Population); auto.
    intros gene s Hs. unfold mutate_gene.
    apply for_loop_preserves with (P := fun s => fst s = Population); auto.
    intros individual [M pos] HM. rewrite mutate_cell_eq.
    rewrite triggered_not_positive; auto. apply Hrnd.
  - intros HPm HE Hshape gene individual Hgene Hind.
    destruct (Mutate_run_inv RAND_MAX rnd Pm Population ElitismNo m n HE Hm Hn Hshape)
      as (_ & _ & Hcells).
    destruct (Hcells gene individual Hgene ltac:(lia)) as [H _].
    unfold Mutate. rewrite H by (unfold visited; lia).
    unfold mutated_gene. now rewrite triggered_above_one.
Qed.

Lemma Mutate_Pm_outside_unit_interval_witness :
  Mutate 32767 alternating [true; false; true; false] (-1 # 2) 0 2 2
    = [true; false; true; false] /\
  load false (Mutate 32767 alternating [true; false; true; false] (3 # 2) 0 2 2)
    (1 + 0 * 2) = negb (load false [true; false; true; false] (1 + 0 * 2)).
Proof.
  assert (Hint : 0 <= 2 <= INT_MAX) by (unfold INT_MAX; lia).
  destruct (Mutate_Pm_outside_unit_interval 32767 alternating
              [true; false; true; false] (-1 # 2) 0 2 2 ltac:(lia) alternating_range
              Hint Hint)
    as [H0 _].
  destruct (Mutate_Pm_outside_unit_interval 32767 alternating
              [true; false; true; false] (3 # 2) 0 2 2 ltac:(lia) alternating_range
              Hint Hint)
    as [_ H1].
  split.
  - apply H0. unfold Qle. simpl. lia.
  - apply H1; try reflexivity; lia.
Defined.

(** ** randr and cmpfunc *)

(** X6.  [randr(min, max)] returns a value of [min, max], for every value
    of [rand()]. *)
Theorem randr_within_bounds (RAND_MAX min max r : Z) :
  0 < RAND_MAX <= INT_MAX -> 0 <= min <= max -> max <= INT_MAX ->
  0 <= r <= RAND_MAX ->
  min <= randr RAND_MAX min max r <= max.
Proof.
  intros HR Hmin Hmax Hr.
  destruct (randr_plain RAND_MAX min max r HR Hmin Hmax Hr) as [-> H]. lia.
Qed.

Lemma randr_within_bounds_witness : 3 <= randr 32767 3 7 20000 <= 7.
Proof. apply randr_within_bounds; unfold INT_MAX; lia. Defined.

(** X7.  [randr] follows [rand()]: the draw 0 gives [min], and a larger
    draw never gives a smaller value. *)
Theorem randr_monotone (RAND_MAX min max r r' : Z) :
  0 < RAND_MAX <= INT_MAX -> 0 <= min <= max -> max <= INT_MAX ->
  0 <= r <= r' -> r' <= RAND_MAX ->
  randr RAND_MAX min max 0 = min /\
  randr RAND_MAX min max r <= randr RAND_MAX min max r'.
Proof.
  intros HR Hmin Hmax Hr Hr'.
  destruct (randr_plain RAND_MAX min max 0 HR Hmin Hmax ltac:(lia)) as [-> _].
  destruct (randr_plain RAND_MAX min max r HR Hmin Hmax ltac:(lia)) as [-> _].
  destruct (randr_plain RAND_MAX min max r' HR Hmin Hmax ltac:(lia)) as [-> _].
  assert (Hq : 0 <= RAND_MAX / (max - min + 1)) by (apply Z.div_pos; lia).
  split.
  - rewrite Z.div_0_l by lia. lia.
  - apply Z.add_le_mono_l. apply Z.div_le_mono; lia.
Qed.

Lemma randr_monotone_witness :
  randr 32767 3 7 0 = 3 /\ randr 32767 3 7 100 <= randr 32767 3 7 20000.
Proof. apply randr_monotone; unfold INT_MAX; lia. Defined.

(** X8.  [randr] does not reach every value of a wide range: the quotient
    [rand() / (RAND_MAX / range + 1)] stops at
    [RAND_MAX / (RAND_MAX / range + 1)], and when this is below
    [max - min] the value [max] is never returned. *)
Theorem randr_max_out_of_reach (RAND_MAX min max r : Z) :
  0 < RAND_MAX <= INT_MAX -> 0 <= min <= max -> max <= INT_MAX ->
  0 <= r <= RAND_MAX ->
  RAND_MAX < (max - min) * (RAND_MAX / (max - min + 1) + 1) ->
  randr RAND_MAX min max r < max.
Proof.
  intros HR Hmin Hmax Hr Hwide.
  destruct (randr_plain RAND_MAX min max r HR Hmin Hmax Hr) as [-> _].
  assert (Hq : 0 <= RAND_MAX / (max - min + 1)) by (apply Z.div_pos; lia).
  assert (r / (RAND_MAX / (max - min + 1) + 1) < max - min); [|lia].
  apply Z.div_lt_upper_bound; [lia|]. nia.
Qed.

Lemma randr_max_out_of_reach_witness : randr 32767 0 299 32767 < 299.
Proof. apply randr_max_out_of_reach; unfold INT_MAX; try lia. vm_compute. reflexivity. Defined.

(** X9.  On matrix indices (values of [0, INT_MAX]) [cmpfunc] is the
    difference, so that [qsort] driven by it leaves the array in ascending
    order, with the same entries. *)
Theorem cmpfunc_sorts_indices (a b : Z) (l : list Z) :
  0 <= a <= INT_MAX -> 0 <= b <= INT_MAX -> Forall (fun c => 0 <= c <= INT_MAX) l ->
  cmpfunc a b = a - b /\
  StronglySorted Z.le (qsort l) /\ Permutation (qsort l) l.
Proof.
  intros Ha Hb Hl. split; [|split].
  - unfold cmpfunc. destruct (Z_lt_le_dec (a - b) 0).
    + apply to_int_small_neg. lia.
    + apply to_int_small. lia.
  - apply qsort_sorted. exact Hl.
  - apply qsort_perm.
Qed.

Lemma cmpfunc_sorts_indices_witness :
  cmpfunc 2 5 = 2 - 5 /\
  StronglySorted Z.le (qsort [4; 0; 2]) /\ Permutation (qsort [4; 0; 2]) [4; 0; 2].
Proof.
  apply cmpfunc_sorts_indices; unfold INT_MAX; try lia.
  repeat constructor; lia.
Defined.

(** ** NpointCrossover.c *)

Section Parents.
Variable RAND_MAX : Z.
Variable rnd : nat -> Z.

(** What the loop for a second parent returns: a row other than the first
    parent, the candidate it started from or one of its own draws. *)
Lemma redraw_P2_spec (m P1 : Z) (fuel : nat) :
  forall P2 pos P2' pos',
    redraw_P2 RAND_MAX rnd fuel m P1 P2 pos = Some (P2', pos') ->
    P2' <> P1 /\
    (P2' = P2 \/ exists q, P2' = randr RAND_MAX 0 (m - 1) (rnd q)).
Proof.
  induction fuel as [|fuel IH]; intros P2 pos P2' pos' Hrun; simpl in Hrun;
    [discriminate|].
  destruct (Z.eqb_spec P1 P2) as [Heq|Hne].
  - apply IH in Hrun. destruct Hrun as [H1 [H2|[q H2]]]; split; auto.
    + right. now exists pos.
    + right. now exists q.
  - injection Hrun as <- <-. split; auto.
Qed.

End Parents.

(** The gene loop keeps the size of [Children]. *)
Lemma assign_genes_length junk Parentpool m my P1 P2 GeneratedChild pts count lo cond s :
  length (snd (fst (for_loop count lo cond
                      (assign_gene junk Parentpool m my P1 P2 GeneratedChild pts) s))) =
  length (snd (fst s)).
Proof.
  apply for_loop_preserves
    with (P := fun s' : Z * list bool * list access =>
                 length (snd (fst s')) = length (snd (fst s))); auto.
  intros gene [[e Ch] acc] Hs. unfold assign_gene. simpl in *.
  destruct (Z.rem _ 2 =? 0); destruct (GeneratedChild <? my); simpl;
    now rewrite ?length_store.
Qed.

(** X10.  The two parents of every crossover event are two different rows
    of the pool. *)
Theorem Crossover_parents_distinct_rows
    (RAND_MAX : Z) (rnd : nat -> Z) (junk : Z -> Z) (fuel : nat)
    (Parentpool : list bool) (m n N my : Z) (st : cstate) (ev : event) :
  0 < RAND_MAX <= INT_MAX -> (forall k, 0 <= rnd k <= RAND_MAX) ->
  1 <= m <= INT_MAX ->
  Crossover RAND_MAX rnd junk fuel Parentpool m n N my = Done st ->
  In ev (events st) ->
  ev_P1 ev <> ev_P2 ev /\ 0 <= ev_P1 ev < m /\ 0 <= ev_P2 ev < m.
Proof.
  intros HR Hrnd Hm Hrun Hev. unfold Crossover in Hrun.
  destruct (to_size_t N >? n); [discriminate|].
  destruct (N <=? 0); [discriminate|].
  destruct (for_loop_opt _ _ _ _ _) as [st'|] eqn:Hloop; [|discriminate].
  injection Hrun as ->.
  assert (Hdraw : forall q, 0 <= randr RAND_MAX 0 (m - 1) (rnd q) < m).
  { intros q.
    pose proof (randr_range RAND_MAX HR 0 (m - 1) (rnd q)
                  ltac:(lia) ltac:(lia) (Hrnd q)). lia. }
  apply for_loop_opt_ind with
    (P := fun _ s => Forall (fun ev =>
            ev_P1 ev <> ev_P2 ev /\ 0 <= ev_P1 ev < m /\ 0 <= ev_P2 ev < m)
            (events s)) in Hloop.
  - destruct Hloop as (_ & _ & Hall & _).
    rewrite Forall_forall in Hall. now apply Hall.
  - constructor.
  - intros i s s' _ _ Hs Hstep.
    apply crossover_event_inv in Hstep.
    destruct Hstep as (P2 & pos1 & pts & pos2 & e & HP2 & _ & _ & _ & Hevs).
    cbv zeta in HP2. apply redraw_P2_spec in HP2.
    rewrite Hevs. apply Forall_app. split; auto.
    constructor; [|constructor]. simpl.
    destruct HP2 as [Hne Hfrom]. split; [congruence|]. split; [apply Hdraw|].
    destruct Hfrom as [->|[q ->]]; apply Hdraw.
Qed.

Lemma Crossover_parents_distinct_rows_witness :
  let ev := {| ev_P1 := 1; ev_P2 := 0; ev_points := [1] |} in
  exists st,
    Crossover 32767 alternating (fun _ => 0) 10
      [true; true; false; false] 2 2 1 2 = Done st /\
    In ev (events st) /\
    ev_P1 ev <> ev_P2 ev /\ 0 <= ev_P1 ev < 2 /\ 0 <= ev_P2 ev < 2.
Proof.
  intros ev. eexists. split; [vm_compute; reflexivity|].
  split; [simpl; auto|].
  eapply (Crossover_parents_distinct_rows 32767 alternating (fun _ => 0) 10
            [true; true; false; false] 2 2 1 2).
  - unfold INT_MAX. lia.
  - apply alternating_range.
  - unfold INT_MAX. lia.
  - vm_compute. reflexivity.
  - simpl. auto.
Defined.

(** X11.  A run of [Crossover] that returns has made one crossover event
    per child asked for, not one per pair of children, and its output has
    the [my * n] entries of the matrix created at the start. *)
Theorem Crossover_one_event_per_child
    (RAND_MAX : Z) (rnd : nat -> Z) (junk : Z -> Z) (fuel : nat)
    (Parentpool : list bool) (m n N my : Z) (st : cstate) :
  Crossover RAND_MAX rnd junk fuel Parentpool m n N my = Done st ->
  length (events st) = Z.to_nat my /\
  length (Children st) = Z.to_nat (my * n).
Proof.
  intros Hrun. unfold Crossover in Hrun.
  destruct (to_size_t N >? n); [discriminate|].
  destruct (N <=? 0); [discriminate|].
  destruct (for_loop_opt _ _ _ _ _) as [st'|] eqn:Hloop; [|discriminate].
  injection Hrun as ->.
  apply for_loop_opt_ind with
    (P := fun i s => Z.of_nat (length (events s)) = i /\
                     length (Children s) = Z.to_nat (my * n)) in Hloop.
  - destruct Hloop as (hi & Hhi & (Hev & Hlen) & Hexit). split; auto.
    destruct (Z_lt_le_dec hi (0 + Z.of_nat (Z.to_nat my))) as [Hlt|Hge]; [|lia].
    specialize (Hexit Hlt). apply Z.ltb_ge in Hexit. lia.
  - simpl. rewrite repeat_length. auto.
  - intros i s s' _ _ [Hev Hlen] Hstep.
    apply crossover_event_inv in Hstep.
    destruct Hstep as (P2 & pos1 & pts & pos2 & e & _ & _ & Hgenes & _ & Hevs).
    cbv zeta in Hgenes. split.
    + rewrite Hevs, length_app. simpl. lia.
    + pose proof (assign_genes_length junk Parentpool m my
                    (randr RAND_MAX 0 (m - 1) (rnd (cpos s))) P2 i (qsort pts)
                    (Z.to_nat n) 0 (fun gene => to_size_t gene <? n)
                    (0, Children s, accesses s)) as Hl.
      rewrite Hgenes in Hl. simpl in Hl. congruence.
Qed.

Lemma Crossover_one_event_per_child_witness :
  exists st,
    Crossover 32767 alternating (fun _ => 0) 10
      [true; true; false; false] 2 2 1 2 = Done st /\
    length (events st) = Z.to_nat 2 /\
    length (Children st) = Z.to_nat (2 * 2).
Proof.
  eexists. split; [vm_compute; reflexivity|].
  eapply (Crossover_one_event_per_child 32767 alternating (fun _ => 0) 10
            [true; true; false; false] 2 2 1 2).
  vm_compute. reflexivity.
Defined.

(** X12.  Every store of a run goes to a row of [0, my] and a column of
    [0, n), and every load of a cut point to an index that is not negative:
    no store lies further than one entry behind the output matrix.  The
    gene counter and the index [GeneratedChild + gene * my] are [int] in the
    C code: the output matrix is one that they can address, [n <= INT_MAX]
    and [my * n <= INT_MAX]. *)
Theorem Crossover_stores_at_most_one_behind
    (RAND_MAX : Z) (rnd : nat -> Z) (junk : Z -> Z) (fuel : nat)
    (Parentpool : list bool) (m n N my : Z) (st : cstate) (a : access) :
  0 <= n <= INT_MAX -> my * n <= INT_MAX ->
  Crossover RAND_MAX rnd junk fuel Parentpool m n N my = Done st ->
  In a (accesses st) ->
  match a with
  | StoreChild row gene =>
      0 <= row <= my /\ 0 <= gene < n /\ 0 <= row + gene * my <= my * n
  | LoadPoint e => 0 <= e
  end.
Proof.
  intros Hint _ Hrun Ha.
  assert (Hn : 0 <= n < SIZE_MOD) by (unfold INT_MAX, SIZE_MOD in *; lia).
  unfold Crossover in Hrun.
  destruct (to_size_t N >? n); [discriminate|].
  destruct (N <=? 0); [discriminate|].
  destruct (for_loop_opt _ _ _ _ _) as [st'|] eqn:Hloop; [|discriminate].
  injection Hrun as ->.
  set (ok := fun a => match a with
                      | StoreChild row gene =>
                          0 <= row <= my /\ 0 <= gene < n /\
                          0 <= row + gene * my <= my * n
                      | LoadPoint e => 0 <= e
                      end).
  apply for_loop_opt_ind with (P := fun _ s => Forall ok (accesses s)) in Hloop.
  - destruct Hloop as (_ & _ & Hall & _).
    rewrite Forall_forall in Hall. now apply (Hall a).
  - constructor.
  - intros i s s' Hi Hcond Hs Hstep. apply Z.ltb_lt in Hcond.
    apply crossover_event_inv in Hstep.
    destruct Hstep as (P2 & pos1 & pts & pos2 & e & _ & _ & Hgenes & _ & _).
    cbv zeta in Hgenes. rewrite for_loop_size_t, Z.sub_0_r in Hgenes by lia.
    assert (H : (fun g (s0 : Z * list bool * list access) =>
                   0 <= fst (fst s0) /\ Forall ok (snd s0))
                  (0 + Z.of_nat (Z.to_nat n))
                  (iterate_from (Z.to_nat n) 0
                     (assign_gene junk Parentpool m my
                        (randr RAND_MAX 0 (m - 1) (rnd (cpos s))) P2 i (qsort pts))
                     (0, Children s, accesses s))).
    { apply iterate_from_ind
        with (P := fun (g : Z) (s0 : Z * list bool * list access) =>
                     0 <= fst (fst s0) /\ Forall ok (snd s0));
        [simpl; split; [lia|auto]|].
      intros g [[e0 C] acc] Hg [He Hacc].
      rewrite assign_gene_eq by auto. cbv zeta. simpl fst in *. simpl snd in *.
      split; [destruct (g >? load_point junk (qsort pts) e0); lia|].
      repeat constructor; auto; simpl; try lia; nia. }
    rewrite Hgenes in H. simpl in H. apply H.
Qed.

Lemma Crossover_stores_at_most_one_behind_witness :
  exists st,
    Crossover 32767 alternating (fun _ => 0) 10
      [true; true; false; false] 2 2 1 2 = Done st /\
    In (StoreChild 2 1) (accesses st) /\
    0 <= 2 <= 2 /\ 0 <= 1 < 2 /\ 0 <= 2 + 1 * 2 <= 2 * 2.
Proof.
  eexists. split; [vm_compute; reflexivity|].
  split; [simpl; auto|].
  eapply (Crossover_stores_at_most_one_behind 32767 alternating (fun _ => 0) 10
            [true; true; false; false] 2 2 1 2 _ (StoreChild 2 1)).
  - unfold INT_MAX. lia.
  - unfold INT_MAX. lia.
  - vm_compute. reflexivity.
  - simpl. auto.
Defined.

Lemma count_prefix (g : Z) (pts : list Z) :
  forall e : nat,
    (e <= length pts)%nat ->
    (forall i, (i < e)%nat -> nth i pts 0 < g) ->
    (forall i, (e <= i < length pts)%nat -> g <= nth i pts 0) ->
    length (filter (fun p => p <? g) pts) = e.
Proof.
  induction pts as [|x l IH]; intros e He Hlow Hhigh; simpl in *; [lia|].
  destruct e as [|e].
  - pose proof (Hhigh O ltac:(lia)) as Hx. simpl in Hx.
    destruct (Z.ltb_spec x g); [lia|].
    apply IH; [lia|intros; lia|].
    intros i Hi. apply (Hhigh (S i)). lia.
  - pose proof (Hlow O ltac:(lia)) as Hx. simpl in Hx.
    destruct (Z.ltb_spec x g); [|lia]. simpl. f_equal.
    apply IH; [lia| |].
    + intros i Hi. apply (Hlow (S i)). lia.
    + intros i Hi. apply (Hhigh (S i)). lia.
Qed.

(** The segment index that the gene loop holds after a column is the
    number of the segment of the column. *)
Lemma segment_index_count (pts : list Z) (g e : Z) :
  segment_index pts (g + 1) e -> segment_of pts g = e.
Proof.
  intros (He & Hlow & Hhigh). unfold segment_of.
  rewrite (count_prefix g pts (Z.to_nat e)); [lia|lia| |].
  - intros i Hi. specialize (Hlow (Z.of_nat i) ltac:(lia)).
    rewrite Nat2Z.id in Hlow. lia.
  - intros i Hi. specialize (Hhigh (Z.of_nat i) ltac:(lia)).
    rewrite Nat2Z.id in Hhigh. lia.
Qed.

Lemma rem2_even (e : Z) : 0 <= e -> (Z.rem e 2 =? 0) = Z.even e.
Proof.
  intros He. rewrite Z.rem_mod_nonneg by lia. rewrite Zmod_even.
  destruct (Z.even e); reflexivity.
Qed.

Section PrimaryChild.
Variable junk : Z -> Z.

(** The gene loop of an event stores nowhere but in its two rows. *)
Lemma assign_genes_frame Parentpool m n my P1 P2 GeneratedChild pts Ch acc idx :
  0 <= n < SIZE_MOD -> GeneratedChild < my ->
  (forall g, 0 <= g < n ->
     idx <> GeneratedChild + g * my /\ idx <> GeneratedChild + 1 + g * my) ->
  load false
    (snd (fst (for_loop (Z.to_nat n) 0 (fun gene => to_size_t gene <? n)
                 (assign_gene junk Parentpool m my P1 P2 GeneratedChild pts)
                 (0, Ch, acc)))) idx =
  load false Ch idx.
Proof.
  intros Hn Hlt Hidx. rewrite for_loop_size_t, Z.sub_0_r by lia.
  assert (H : (fun (g : Z) (s : Z * list bool * list access) =>
                 load false (snd (fst s)) idx = load false Ch idx)
                (0 + Z.of_nat (Z.to_nat n))
                (iterate_from (Z.to_nat n) 0
                   (assign_gene junk Parentpool m my P1 P2 GeneratedChild pts)
                   (0, Ch, acc))).
  { apply iterate_from_ind
      with (P := fun (g : Z) (s : Z * list bool * list access) =>
                   load false (snd (fst s)) idx = load false Ch idx); auto.
    intros g [[e C] a] Hg Hs. rewrite assign_gene_eq by auto. cbv zeta.
    simpl fst in *. simpl snd in *.
    destruct (Hidx g ltac:(lia)) as [H1 H2].
    rewrite !load_store_other by congruence. exact Hs. }
  exact H.
Qed.

(** The first child of an event, on the columns up to one behind the last
    cut point: the gene of the first parent in the segments of even number,
    of the second parent in the others. *)
Lemma assign_genes_primary_child Parentpool m n my P1 P2 GeneratedChild pts Ch acc :
  0 <= GeneratedChild < my -> 0 <= n < SIZE_MOD ->
  StronglySorted Z.lt pts -> Forall (fun c => 0 <= c < n) pts ->
  (0 < length pts)%nat ->
  Z.of_nat (length Ch) = my * n ->
  forall c, 0 <= c < n -> c <= nth (length pts - 1) pts 0 + 1 ->
    load false
      (snd (fst (for_loop (Z.to_nat n) 0 (fun gene => to_size_t gene <? n)
                   (assign_gene junk Parentpool m my P1 P2 GeneratedChild pts)
                   (0, Ch, acc)))) (GeneratedChild + c * my) =
    load false Parentpool
      ((if Z.even (segment_of pts c) then P1 else P2) + c * m).
Proof.
  intros HGC Hn Hsorted Hrange Hlen HCh.
  rewrite for_loop_size_t, Z.sub_0_r by lia.
  set (last := nth (length pts - 1) pts 0).
  set (Inv := fun (g : Z) (s : Z * list bool * list access) =>
    length (snd (fst s)) = length Ch /\
    (g <= last + 1 -> segment_index pts g (fst (fst s))) /\
    (forall c, 0 <= c < g -> c <= last + 1 ->
       load false (snd (fst s)) (GeneratedChild + c * my) =
       load false Parentpool
         ((if Z.even (segment_of pts c) then P1 else P2) + c * m))).
  assert (H : Inv (0 + Z.of_nat (Z.to_nat n))
                (iterate_from (Z.to_nat n) 0
                   (assign_gene junk Parentpool m my P1 P2 GeneratedChild pts)
                   (0, Ch, acc))).
  { apply iterate_from_ind with (P := Inv).
    - unfold Inv. simpl. split; [reflexivity|]. split; [|intros; lia].
      intros _. split; [lia|]. split; [intros; lia|]. intros i Hi.
      rewrite Forall_forall in Hrange.
      specialize (Hrange (nth (Z.to_nat i) pts 0) ltac:(apply nth_In; lia)). lia.
    - intros g [[e C] a] Hg (HlenC & Hseg & Hcells). unfold Inv.
      rewrite assign_gene_eq by lia. cbv zeta. simpl fst in *. simpl snd in *.
      split; [now rewrite !length_store|]. split.
      + intros Hg'. specialize (Hseg ltac:(lia)).
        apply segment_index_step; auto.
        destruct Hseg as (He & Hlow & _).
        destruct (Z.eq_dec e (Z.of_nat (length pts))) as [->|]; [|lia].
        specialize (Hlow (Z.of_nat (length pts - 1)) ltac:(lia)).
        rewrite Nat2Z.id in Hlow. fold last in Hlow. lia.
      + intros c Hc Hc'. destruct (Z.eq_dec c g) as [->|Hne].
        * specialize (Hseg ltac:(lia)).
          assert (He : e < Z.of_nat (length pts)).
          { destruct Hseg as (He & Hlow & _).
            destruct (Z.eq_dec e (Z.of_nat (length pts))) as [->|]; [|lia].
            specialize (Hlow (Z.of_nat (length pts - 1)) ltac:(lia)).
            rewrite Nat2Z.id in Hlow. fold last in Hlow. lia. }
          pose proof (segment_index_step junk pts Hsorted g e Hseg He) as Hstep.
          pose proof (segment_index_count pts g _ Hstep) as Hcount.
          rewrite Hcount.
          assert (He' : 0 <= (if g >? load_point junk pts e then e + 1 else e)).
          { destruct Hseg as (He0 & _). destruct (g >? _); lia. }
          rewrite (rem2_even _ He').
          rewrite load_store_other by lia.
          apply load_store_same. apply in_bounds_iff. rewrite HlenC. nia.
        * rewrite !load_store_other by nia. apply Hcells; lia. }
  intros c Hc Hc'. destruct H as (_ & _ & Hcells).
  apply Hcells; [rewrite Z2Nat.id by lia; lia|exact Hc'].
Qed.

End PrimaryChild.

Section EitherParent.
Variable junk : Z -> Z.

(** The first child of an event takes each of its genes from one of the
    two parents, at every column, whatever the cut-point loads return. *)
Lemma assign_genes_either_parent Parentpool m n my P1 P2 GeneratedChild pts Ch acc :
  0 <= GeneratedChild < my -> 0 <= n < SIZE_MOD ->
  Z.of_nat (length Ch) = my * n ->
  forall c, 0 <= c < n ->
    let gene :=
      load false
        (snd (fst (for_loop (Z.to_nat n) 0 (fun gene => to_size_t gene <? n)
                     (assign_gene junk Parentpool m my P1 P2 GeneratedChild pts)
                     (0, Ch, acc)))) (GeneratedChild + c * my) in
    gene = load false Parentpool (P1 + c * m) \/
    gene = load false Parentpool (P2 + c * m).
Proof.
  intros HGC Hn HCh. rewrite for_loop_size_t, Z.sub_0_r by lia.
  set (Inv := fun (g : Z) (s : Z * list bool * list access) =>
    length (snd (fst s)) = length Ch /\
    forall c, 0 <= c < g ->
      load false (snd (fst s)) (GeneratedChild + c * my) =
        load false Parentpool (P1 + c * m) \/
      load false (snd (fst s)) (GeneratedChild + c * my) =
        load false Parentpool (P2 + c * m)).
  assert (H : Inv (0 + Z.of_nat (Z.to_nat n))
                (iterate_from (Z.to_nat n) 0
                   (assign_gene junk Parentpool m my P1 P2 GeneratedChild pts)
                   (0, Ch, acc))).
  { apply iterate_from_ind with (P := Inv).
    - unfold Inv. simpl. split; [reflexivity|intros; lia].
    - intros g [[e C] a] Hg (HlenC & Hcells). unfold Inv.
      rewrite assign_gene_eq by lia. cbv zeta. simpl fst in *. simpl snd in *.
      split; [now rewrite !length_store|].
      intros c Hc. destruct (Z.eq_dec c g) as [->|Hne].
      + rewrite load_store_other by lia.
        rewrite load_store_same by (apply in_bounds_iff; rewrite HlenC; nia).
        destruct (Z.rem _ 2 =? 0); auto.
      + rewrite !load_store_other by nia. apply Hcells. lia. }
  intros c Hc. destruct H as (_ & Hcells). apply Hcells.
  rewrite Z2Nat.id by lia. lia.
Qed.

End EitherParent.

(** Every row of the output but the first is left as the event of its
    number made it: what holds of the first child of each event right after
    its gene loop holds of the rows that [Crossover] returns. *)
Lemma Crossover_row_of_its_event
    (RAND_MAX : Z) (rnd : nat -> Z) (junk : Z -> Z) (fuel : nat)
    (Parentpool : list bool) (m n N my : Z)
    (Q : event -> Z -> bool -> Prop) :
  0 < RAND_MAX <= INT_MAX -> (forall k, 0 <= rnd k <= RAND_MAX) ->
  n <= INT_MAX -> N <= INT_MAX ->
  (forall P1 P2 pts GeneratedChild Ch acc c,
     0 <= GeneratedChild < my ->
     StronglySorted Z.lt pts -> Forall (fun p => 0 <= p < n) pts ->
     Z.of_nat (length pts) = N ->
     Z.of_nat (length Ch) = my * n ->
     0 <= c < n ->
     Q {| ev_P1 := P1; ev_P2 := P2; ev_points := pts |} c
       (load false
          (snd (fst (for_loop (Z.to_nat n) 0 (fun gene => to_size_t gene <? n)
                       (assign_gene junk Parentpool m my P1 P2 GeneratedChild pts)
                       (0, Ch, acc)))) (GeneratedChild + c * my))) ->
  forall st r c ev,
    Crossover RAND_MAX rnd junk fuel Parentpool m n N my = Done st ->
    0 <= r < my -> 1 <= r \/ my = 1 ->
    nth_error (events st) (Z.to_nat r) = Some ev ->
    0 <= c < n ->
    Q ev c (load false (Children st) (r + c * my)).
Proof.
  intros HR Hrnd Hn HN Hevent st r c ev Hrun Hr Hrow Hev Hc.
  unfold Crossover in Hrun.
  destruct (Z.gtb_spec (to_size_t N) n) as [|Hle]; [discriminate|].
  destruct (Z.leb_spec N 0) as [|Hpos]; [discriminate|].
  rewrite to_size_t_small in Hle by (unfold INT_MAX, SIZE_MOD in *; lia).
  destruct (for_loop_opt _ _ _ _ _) as [st'|] eqn:Hloop; [|discriminate].
  injection Hrun as ->.
  assert (HnS : 0 <= n < SIZE_MOD) by (unfold INT_MAX, SIZE_MOD in *; lia).
  apply for_loop_opt_ind with
    (P := fun i s =>
       Z.of_nat (length (Children s)) = my * n /\
       Z.of_nat (length (events s)) = i /\
       forall r c ev,
         0 <= r < i -> 1 <= r \/ my = 1 ->
         nth_error (events s) (Z.to_nat r) = Some ev ->
         0 <= c < n ->
         Q ev c (load false (Children s) (r + c * my))) in Hloop.
  - destruct Hloop as (hi & Hhi & (_ & Hevs & Hcells) & _).
    apply Hcells; auto.
    assert (Z.to_nat r < length (events st))%nat by (apply nth_error_Some; congruence).
    lia.
  - simpl. rewrite repeat_length, Z2Nat.id by nia.
    split; [reflexivity|]. split; [reflexivity|]. intros; lia.
  - intros i s s' Hi Hcond (HlenC & HlenE & Hcells) Hstep. apply Z.ltb_lt in Hcond.
    apply crossover_event_inv in Hstep.
    destruct Hstep as (P2 & pos1 & pts & pos2 & e & _ & Hpts & Hgenes & _ & Hevs).
    cbv zeta in Hgenes.
    set (P1 := randr RAND_MAX 0 (m - 1) (rnd (cpos s))) in *.
    assert (HCh : Children s' =
              snd (fst (for_loop (Z.to_nat n) 0 (fun gene => to_size_t gene <? n)
                          (assign_gene junk Parentpool m my P1 P2 i (qsort pts))
                          (0, Children s, accesses s)))).
    { now rewrite Hgenes. }
    split; [|split].
    + rewrite HCh, assign_genes_length. exact HlenC.
    + rewrite Hevs, length_app. simpl. lia.
    + intros r0 c0 ev0 Hr0 Hrow0 Hev0 Hc0.
      rewrite Hevs in Hev0. rewrite HCh.
      destruct (Z.eq_dec r0 i) as [->|Hne].
      * rewrite nth_error_app2 in Hev0 by lia.
        replace (Z.to_nat i - length (events s))%nat with O in Hev0 by lia.
        injection Hev0 as <-.
        destruct (pick_points_sorted RAND_MAX rnd HR Hrnd fuel n N pts pos1 pos2
                    ltac:(lia) ltac:(lia) Hpts) as (Hlen & _ & Hrange & Hsorted).
        apply Hevent; auto; lia.
      * rewrite nth_error_app1 in Hev0 by lia.
        rewrite assign_genes_frame; auto.
        -- apply Hcells; auto. lia.
        -- intros g Hg.
           assert (c0 - g <= 0 \/ 1 <= c0 - g) by lia.
           split; intros Heq.
           ++ nia.
           ++ destruct Hrow0 as [Hrow0|Hmy]; [|lia]. nia.
Qed.

(** X13.  Gene provenance where it holds.  In a run that returns, take a
    row [r] of the output other than row 0 (or row 0 when [my = 1]) and a
    column [c] no further than one behind the last cut point of event [r].
    The gene there is the gene of column [c] of one of the two parents of
    event [r]: of the first parent when an even number of cut points lies
    before [c], of the second one otherwise.  The index
    [GeneratedChild + gene * my] being [int], [my * n <= INT_MAX]. *)
Theorem Crossover_child_gene_provenance
    (RAND_MAX : Z) (rnd : nat -> Z) (junk : Z -> Z) (fuel : nat)
    (Parentpool : list bool) (m n N my : Z) (st : cstate)
    (r c : Z) (ev : event) :
  0 < RAND_MAX <= INT_MAX -> (forall k, 0 <= rnd k <= RAND_MAX) ->
  n <= INT_MAX -> N <= INT_MAX -> my * n <= INT_MAX ->
  Crossover RAND_MAX rnd junk fuel Parentpool m n N my = Done st ->
  0 <= r < my -> 1 <= r \/ my = 1 ->
  nth_error (events st) (Z.to_nat r) = Some ev ->
  0 <= c < n -> c <= nth (Z.to_nat (N - 1)) (ev_points ev) 0 + 1 ->
  load false (Children st) (r + c * my) =
  load false Parentpool
    ((if Z.even (segment_of (ev_points ev) c) then ev_P1 ev else ev_P2 ev) + c * m).
Proof.
  intros HR Hrnd Hn HN _ Hrun Hr Hrow Hev Hc Hlast.
  assert (HN1 : 1 <= N).
  { unfold Crossover in Hrun. destruct (to_size_t N >? n); [discriminate|].
    destruct (Z.leb_spec N 0); [discriminate|lia]. }
  revert Hlast.
  apply (Crossover_row_of_its_event RAND_MAX rnd junk fuel Parentpool m n N my
           (fun ev c gene =>
              c <= nth (Z.to_nat (N - 1)) (ev_points ev) 0 + 1 ->
              gene = load false Parentpool
                       ((if Z.even (segment_of (ev_points ev) c)
                         then ev_P1 ev else ev_P2 ev) + c * m))
           HR Hrnd Hn HN) with (st := st); auto.
  intros P1 P2 pts GC Ch acc c0 HGC Hsorted Hrange Hlen HCh Hc0 Hlast. simpl in *.
  apply assign_genes_primary_child; auto; try lia.
  - unfold INT_MAX, SIZE_MOD in *. lia.
  - replace (length pts - 1)%nat with (Z.to_nat (N - 1)) by lia. exact Hlast.
Qed.

Lemma Crossover_child_gene_provenance_witness :
  let ev := {| ev_P1 := 1; ev_P2 := 0; ev_points := [1] |} in
  exists st,
    Crossover 32767 alternating (fun _ => 0) 10
      [true; true; false; false] 2 2 1 2 = Done st /\
    nth_error (events st) (Z.to_nat 1) = Some ev /\
    load false (Children st) (1 + 1 * 2) =
    load false [true; true; false; false]
      ((if Z.even (segment_of (ev_points ev) 1) then ev_P1 ev else ev_P2 ev) + 1 * 2).
Proof.
  intros ev. eexists. split; [vm_compute; reflexivity|].
  split; [reflexivity|].
  eapply (Crossover_child_gene_provenance 32767 alternating (fun _ => 0) 10
            [true; true; false; false] 2 2 1 2 _ 1 1 ev).
  - unfold INT_MAX. lia.
  - apply alternating_range.
  - unfold INT_MAX. lia.
  - unfold INT_MAX. lia.
  - unfold INT_MAX. lia.
  - vm_compute. reflexivity.
  - lia.
  - lia.
  - reflexivity.
  - lia.
  - simpl. lia.
Defined.

(** X22.  No blended gene in the rows that are kept.  In a run that
    returns, every gene of every row of the output other than row 0 (or of
    row 0 when [my = 1]), at every column, is the gene of the same column
    of one of the two parents of the event of the number of the row,
    whatever lies behind the cut-point array.  The index
    [GeneratedChild + gene * my] being [int], [my * n <= INT_MAX]. *)
Theorem Crossover_child_gene_of_a_parent
    (RAND_MAX : Z) (rnd : nat -> Z) (junk : Z -> Z) (fuel : nat)
    (Parentpool : list bool) (m n N my : Z) (st : cstate)
    (r c : Z) (ev : event) :
  0 < RAND_MAX <= INT_MAX -> (forall k, 0 <= rnd k <= RAND_MAX) ->
  n <= INT_MAX -> N <= INT_MAX -> my * n <= INT_MAX ->
  Crossover RAND_MAX rnd junk fuel Parentpool m n N my = Done st ->
  0 <= r < my -> 1 <= r \/ my = 1 ->
  nth_error (events st) (Z.to_nat r) = Some ev ->
  0 <= c < n ->
  load false (Children st) (r + c * my) = load false Parentpool (ev_P1 ev + c * m) \/
  load false (Children st) (r + c * my) = load false Parentpool (ev_P2 ev + c * m).
Proof.
  intros HR Hrnd Hn HN _ Hrun Hr Hrow Hev Hc.
  apply (Crossover_row_of_its_event RAND_MAX rnd junk fuel Parentpool m n N my
           (fun ev c gene =>
              gene = load false Parentpool (ev_P1 ev + c * m) \/
              gene = load false Parentpool (ev_P2 ev + c * m))
           HR Hrnd Hn HN) with (st := st); auto.
  intros P1 P2 pts GC Ch acc c0 HGC Hsorted Hrange Hlen HCh Hc0. simpl.
  apply assign_genes_either_parent; auto.
  unfold INT_MAX, SIZE_MOD in *. lia.
Qed.

Lemma Crossover_child_gene_of_a_parent_witness :
  let ev := {| ev_P1 := 1; ev_P2 := 0; ev_points := [1] |} in
  exists st,
    Crossover 32767 alternating (fun _ => 0) 10
      [true; true; false; false] 2 2 1 2 = Done st /\
    nth_error (events st) (Z.to_nat 1) = Some ev /\
    (load false (Children st) (1 + 1 * 2) =
       load false [true; true; false; false] (ev_P1 ev + 1 * 2) \/
     load false (Children st) (1 + 1 * 2) =
       load false [true; true; false; false] (ev_P2 ev + 1 * 2)).
Proof.
  intros ev. eexists. split; [vm_compute; reflexivity|].
  split; [reflexivity|].
  eapply (Crossover_child_gene_of_a_parent 32767 alternating (fun _ => 0) 10
            [true; true; false; false] 2 2 1 2 _ 1 1 ev).
  - unfold INT_MAX. lia.
  - apply alternating_range.
  - unfold INT_MAX. lia.
  - unfold INT_MAX. lia.
  - unfold INT_MAX. lia.
  - vm_compute. reflexivity.
  - lia.
  - lia.
  - reflexivity.
  - lia.
Defined.

(** ** TournamentSelection.c *)

(** X14.  A run of [Select] that returns has held [NoSurvivors] tournaments
    and its two outputs have the sizes of the matrices created at the
    start: [NoSurvivors * n] genes and [NoSurvivors] fitness values. *)
Theorem Select_output_sizes
    (RAND_MAX : Z) (rnd : nat -> Z) (F : Type) (gtb : F -> F -> bool) (Fzero : F)
    (fuel : nat) (k : Z) (Fitness : list F) (Population : list bool)
    (NoSurvivors Eliterows m n : Z) (Winner0 : F) (WinnerIndex0 : Z)
    (st : sstate F) :
  Select RAND_MAX rnd F gtb Fzero fuel k Fitness Population NoSurvivors Eliterows m n
    Winner0 WinnerIndex0 = Done st ->
  length (tours st) = Z.to_nat NoSurvivors /\
  length (Survivors st) = Z.to_nat (NoSurvivors * n) /\
  length (SurvivorFitness st) = Z.to_nat NoSurvivors.
Proof.
  intros Hrun. unfold Select, TourSel in Hrun.
  destruct (for_loop_opt _ _ _ _ _) as [st'|] eqn:Hloop; [|discriminate].
  injection Hrun as ->.
  apply for_loop_opt_ind with
    (P := fun i s =>
       Z.of_nat (length (tours s)) = i /\
       length (Survivors s) = Z.to_nat (NoSurvivors * n) /\
       length (SurvivorFitness s) = Z.to_nat NoSurvivors) in Hloop.
  - destruct Hloop as (hi & Hhi & (Ht & HS & HF) & Hexit).
    split; [|split]; auto.
    destruct (Z_lt_le_dec hi (0 + Z.of_nat (Z.to_nat NoSurvivors))) as [Hlt|Hge]; [|lia].
    specialize (Hexit Hlt). apply Z.ltb_ge in Hexit. lia.
  - simpl. rewrite !repeat_length. auto.
  - intros i s s' _ _ (Ht & HS & HF) Hstep.
    apply tournament_inv in Hstep.
    destruct Hstep as (cl & _ & Htours & _ & HSF & HSv).
    split; [|split].
    + rewrite Htours, length_app. simpl. lia.
    + rewrite HSv.
      apply for_loop_preserves
        with (P := fun Sv : list bool => length Sv = Z.to_nat (NoSurvivors * n)); auto.
      intros col Sv HSv'. now rewrite length_store.
    + rewrite HSF, length_store. exact HF.
Qed.

Lemma Select_output_sizes_witness :
  exists st,
    Select 32767 alternating Z Z.gtb 0 10 2 [1; 9; 5; 2]
      [true; false; true; false; false; true; true; false; true; false; true; false]
      1 1 4 3 0 0 = Done st /\
    length (tours st) = Z.to_nat 1 /\
    length (Survivors st) = Z.to_nat (1 * 3) /\
    length (SurvivorFitness st) = Z.to_nat 1.
Proof.
  eexists. split; [vm_compute; reflexivity|].
  eapply (Select_output_sizes 32767 alternating Z Z.gtb 0 10 2 [1; 9; 5; 2]
            [true; false; true; false; false; true; true; false; true; false; true; false]
            1 1 4 3 0 0).
  vm_compute. reflexivity.
Defined.

(** X15.  A tournament size above the number of rows that are not elite is
    not rejected: the loop that draws the contenders cannot find [k]
    distinct ones and [Select], asked for a survivor, does not return. *)
Theorem Select_oversized_tournament_never_returns
    (RAND_MAX : Z) (rnd : nat -> Z) (F : Type) (gtb : F -> F -> bool) (Fzero : F)
    (fuel : nat) (k : Z) (Fitness : list F) (Population : list bool)
    (NoSurvivors Eliterows m n : Z) (Winner0 : F) (WinnerIndex0 : Z)
    (st : sstate F) :
  0 < RAND_MAX <= INT_MAX -> (forall q, 0 <= rnd q <= RAND_MAX) ->
  0 <= Eliterows < m -> m <= INT_MAX ->
  m - Eliterows < k -> 1 <= NoSurvivors ->
  Select RAND_MAX rnd F gtb Fzero fuel k Fitness Population NoSurvivors Eliterows m n
    Winner0 WinnerIndex0 <> Done st.
Proof.
  intros HR Hrnd HE Hm Hk HNS Hrun. unfold Select, TourSel in Hrun.
  destruct (for_loop_opt _ _ _ _ _) as [st'|] eqn:Hloop; [|discriminate].
  injection Hrun as ->.
  apply for_loop_opt_ind with
    (P := fun i s => i = 0 /\ tours s = []) in Hloop.
  - destruct Hloop as (hi & Hhi & (-> & _) & Hexit).
    specialize (Hexit ltac:(lia)). apply Z.ltb_ge in Hexit. lia.
  - auto.
  - intros i s s' _ _ _ Hstep. exfalso.
    apply tournament_inv in Hstep.
    destruct Hstep as (cl & Hdraw & _).
    apply draw_distinct_spec in Hdraw; auto; try lia; [|constructor].
    destruct Hdraw as (Hlen & Hnd & _ & Hdraws).
    assert (Hall : Forall (fun c => Eliterows <= c < m) cl).
    { apply Forall_forall. intros c Hc.
      destruct (Hdraws c Hc) as [[]|(q & _ & ->)].
      pose proof (randr_range RAND_MAX HR Eliterows (m - 1) (rnd q)
                    ltac:(lia) ltac:(lia) (Hrnd q)). lia. }
    pose proof (NoDup_range_length Eliterows m cl Hnd Hall). lia.
Qed.

Lemma Select_oversized_tournament_never_returns_witness :
  Select 32767 alternating Z Z.gtb 0 10 3 [1; 9; 5; 2]
    [true; false; true; false; false; true; true; false; true; false; true; false]
    1 2 4 3 0 0 <>
  Done {| Survivors := []; SurvivorFitness := []; Winner := 0; WinnerIndex := 0;
          spos := O; tours := [] |}.
Proof.
  apply Select_oversized_tournament_never_returns;
    try apply alternating_range; unfold INT_MAX; lia.
Defined.

Section Survivors.
Variable F : Type.
Variable gtb : F -> F -> bool.
Variable Fzero : F.

(** Whatever [>] does on the fitness values, the winner loop ends on one of
    the contenders and its fitness. *)
Lemma judge_some_contender Fitness cl k W0 WI0 :
  1 <= k -> Z.of_nat (length cl) = k ->
  exists w,
    0 <= w < k /\
    for_loop (Z.to_nat k) 0 (fun row => row <? k)
      (judge F gtb Fzero cl (map (load Fzero Fitness) cl)) (W0, WI0) =
      (load Fzero Fitness (load 0 cl w), load 0 cl w).
Proof.
  intros Hk Hlen. rewrite for_loop_int.
  set (fit := load Fzero Fitness).
  set (Inv := fun (r : Z) (s : F * Z) =>
    r = 0 \/ exists w, 0 <= w < r /\ s = (fit (load 0 cl w), load 0 cl w)).
  assert (H : Inv (0 + Z.of_nat (Z.to_nat k))
                (iterate_from (Z.to_nat k) 0 (judge F gtb Fzero cl (map fit cl)) (W0, WI0))).
  { apply iterate_from_ind with (P := Inv); [now left|].
    intros r [W WI] Hr Hinv. right.
    assert (Hb : in_bounds cl r = true) by (apply in_bounds_iff; lia).
    unfold judge. rewrite (load_map fit 0 Fzero cl r Hb).
    destruct (Z.eqb_spec r 0) as [->|Hnz].
    - exists 0. split; [lia|reflexivity].
    - destruct Hinv as [|(w & Hw & Hs)]; [lia|].
      destruct (gtb (fit (load 0 cl r)) W).
      + exists r. split; [lia|reflexivity].
      + exists w. split; [lia|exact Hs]. }
  rewrite Z.add_0_l, Z2Nat.id in H by lia.
  destruct H as [|(w & Hw & Hs)]; [lia|]. exists w. auto.
Qed.

End Survivors.

Lemma load_In {A : Type} (d : A) (a : list A) (i : Z) :
  in_bounds a i = true -> In (load d a i) a.
Proof.
  intros H. unfold load. rewrite H. apply nth_In.
  apply in_bounds_iff in H. lia.
Qed.

(** X16.  Every survivor is an individual of the population that is not
    elite, with its own fitness value: row [t] of [Survivors] and
    [SurvivorFitness[t]] are row [w] of [Population] and [Fitness[w]] for
    one [w] of [Eliterows, m).  This needs nothing of the comparison of
    the fitness values.  The column counter and the index
    [Tournament + NoSurvivors * col] being [int], [n <= INT_MAX] and
    [NoSurvivors * n <= INT_MAX]. *)
Theorem Select_survivor_is_non_elite_individual
    (RAND_MAX : Z) (rnd : nat -> Z) (F : Type) (gtb : F -> F -> bool) (Fzero : F)
    (fuel : nat) (k : Z) (Fitness : list F) (Population : list bool)
    (NoSurvivors Eliterows m n : Z) (Winner0 : F) (WinnerIndex0 : Z)
    (st : sstate F) (t : Z) :
  0 < RAND_MAX <= INT_MAX -> (forall q, 0 <= rnd q <= RAND_MAX) ->
  0 <= Eliterows -> 1 <= k <= m - Eliterows -> m <= INT_MAX ->
  0 <= n <= INT_MAX -> NoSurvivors * n <= INT_MAX ->
  Select RAND_MAX rnd F gtb Fzero fuel k Fitness Population NoSurvivors Eliterows m n
    Winner0 WinnerIndex0 = Done st ->
  0 <= t < NoSurvivors ->
  exists w,
    Eliterows <= w < m /\
    load Fzero (SurvivorFitness st) t = load Fzero Fitness w /\
    forall col, 0 <= col < n ->
      load false (Survivors st) (t + NoSurvivors * col) =
      load false Population (w + m * col).
Proof.
  intros HR Hrnd HE Hk Hm Hint _ Hrun Ht.
  assert (Hn : 0 <= n < SIZE_MOD) by (unfold INT_MAX, SIZE_MOD in *; lia).
  unfold Select, TourSel in Hrun.
  destruct (for_loop_opt _ _ _ _ _) as [st'|] eqn:Hloop; [|discriminate].
  injection Hrun as ->.
  apply for_loop_opt_ind with
    (P := fun i s =>
       Z.of_nat (length (SurvivorFitness s)) = NoSurvivors /\
       Z.of_nat (length (Survivors s)) = NoSurvivors * n /\
       forall t, 0 <= t < i ->
         exists w,
           Eliterows <= w < m /\
           load Fzero (SurvivorFitness s) t = load Fzero Fitness w /\
           forall col, 0 <= col < n ->
             load false (Survivors s) (t + NoSurvivors * col) =
             load false Population (w + m * col)) in Hloop.
  - destruct Hloop as (hi & Hhi & (_ & _ & Hall) & Hexit).
    apply Hall. rewrite Z2Nat.id in * by lia.
    destruct (Z_lt_le_dec hi NoSurvivors) as [Hlt|]; [|lia].
    specialize (Hexit ltac:(lia)). apply Z.ltb_ge in Hexit. lia.
  - simpl. rewrite !repeat_length. repeat split; try lia. nia.
  - intros i s s' Hi Hcond (HlenF & HlenS & Hprev) Hstep.
    apply Z.ltb_lt in Hcond.
    apply tournament_inv in Hstep.
    destruct Hstep as (cl & Hdraw & _ & Hjudge & HSF & HSv).
    apply draw_distinct_spec in Hdraw; auto; try lia; [|constructor].
    destruct Hdraw as (Hlen & _ & _ & Hdraws).
    destruct (judge_some_contender F gtb Fzero Fitness cl k (Winner s) (WinnerIndex s)
                ltac:(lia) Hlen) as (w & Hw & Hres).
    rewrite Hres in Hjudge. injection Hjudge as HW HWI.
    assert (Hrange : Eliterows <= load 0 cl w < m).
    { destruct (Hdraws (load 0 cl w)) as [[]|(q & _ & ->)].
      - apply load_In. apply in_bounds_iff. lia.
      - pose proof (randr_range RAND_MAX HR Eliterows (m - 1) (rnd q)
                      ltac:(lia) ltac:(lia) (Hrnd q)). lia. }
    destruct (copy_row Population NoSurvivors m n i (WinnerIndex s') (Survivors s)
                ltac:(lia) Hn HlenS) as (HlenS' & Hrow & Hothers).
    rewrite <- HSv in HlenS', Hrow, Hothers.
    split; [|split].
    + rewrite HSF, length_store. exact HlenF.
    + rewrite HlenS'. exact HlenS.
    + intros t' Ht'. destruct (Z.eq_dec t' i) as [->|Hne].
      * exists (load 0 cl w). split; [exact Hrange|]. split.
        -- rewrite HSF, load_store_same by (apply in_bounds_iff; lia). now rewrite <- HW.
        -- intros col Hcol. rewrite Hrow by auto. now rewrite <- HWI.
      * destruct (Hprev t' ltac:(lia)) as (w' & Hw' & HF' & HS').
        exists w'. split; [exact Hw'|]. split.
        -- rewrite HSF, load_store_other by auto. exact HF'.
        -- intros col Hcol. rewrite Hothers by (auto; lia). now apply HS'.
Qed.

Lemma Select_survivor_is_non_elite_individual_witness :
  exists st,
    Select 32767 alternating Z Z.gtb 0 10 2 [1; 9; 5; 2]
      [true; false; true; false; false; true; true; false; true; false; true; false]
      1 1 4 3 0 0 = Done st /\
    exists w,
      1 <= w < 4 /\
      load 0 (SurvivorFitness st) 0 = load 0 [1; 9; 5; 2] w /\
      forall col, 0 <= col < 3 ->
        load false (Survivors st) (0 + 1 * col) =
        load false
          [true; false; true; false; false; true; true; false; true; false; true; false]
          (w + 4 * col).
Proof.
  eexists. split; [vm_compute; reflexivity|].
  eapply (Select_survivor_is_non_elite_individual 32767 alternating Z Z.gtb 0 10
            2 [1; 9; 5; 2]
            [true; false; true; false; false; true; true; false; true; false; true; false]
            1 1 4 3 0 0).
  - unfold INT_MAX. lia.
  - apply alternating_range.
  - lia.
  - lia.
  - unfold INT_MAX. lia.
  - unfold INT_MAX. lia.
  - unfold INT_MAX. lia.
  - vm_compute. reflexivity.
  - lia.
Defined.

(** Two bodies that agree on the range of a loop give the same loop. *)
Lemma iterate_from_ext {S : Type} (body body' : Z -> S -> S) (trips : nat) :
  forall lo s,
    (forall i s, lo <= i < lo + Z.of_nat trips -> body i s = body' i s) ->
    iterate_from trips lo body s = iterate_from trips lo body' s.
Proof.
  induction trips as [|t IH]; intros lo s Hext; simpl; auto.
  rewrite Hext by lia. apply IH. intros i s' Hi. apply Hext. lia.
Qed.

Lemma for_loop_opt_ext {S : Type} (cond : Z -> bool) (body body' : Z -> S -> option S)
    (count : nat) :
  (forall i s, body i s = body' i s) ->
  forall lo s, for_loop_opt count lo cond body s = for_loop_opt count lo cond body' s.
Proof.
  intros Hext. induction count as [|c IH]; intros lo s; simpl; auto.
  destruct (cond lo); auto. rewrite Hext.
  destruct (body' lo s); auto.
Qed.

(** X17.  [Select] reads nothing of the elite rows: two calls on the same
    stream of draws whose fitness vectors and populations agree on the rows
    of [Eliterows, m) give the same result. *)
Theorem Select_ignores_elite_rows
    (RAND_MAX : Z) (rnd : nat -> Z) (F : Type) (gtb : F -> F -> bool) (Fzero : F)
    (fuel : nat) (k : Z) (Fitness Fitness' : list F) (Population Population' : list bool)
    (NoSurvivors Eliterows m n : Z) (Winner0 : F) (WinnerIndex0 : Z) :
  0 < RAND_MAX <= INT_MAX -> (forall q, 0 <= rnd q <= RAND_MAX) ->
  0 <= Eliterows -> 1 <= k <= m - Eliterows -> m <= INT_MAX ->
  0 <= n < SIZE_MOD ->
  (forall w, Eliterows <= w < m ->
     load Fzero Fitness w = load Fzero Fitness' w /\
     forall col, 0 <= col < n ->
       load false Population (w + m * col) = load false Population' (w + m * col)) ->
  Select RAND_MAX rnd F gtb Fzero fuel k Fitness Population NoSurvivors Eliterows m n
    Winner0 WinnerIndex0 =
  Select RAND_MAX rnd F gtb Fzero fuel k Fitness' Population' NoSurvivors Eliterows m n
    Winner0 WinnerIndex0.
Proof.
  intros HR Hrnd HE Hk Hm Hn Hagree. unfold Select, TourSel.
  rewrite (for_loop_opt_ext _
             (tournament RAND_MAX rnd F gtb Fzero fuel k Fitness Population
                NoSurvivors Eliterows m n)
             (tournament RAND_MAX rnd F gtb Fzero fuel k Fitness' Population'
                NoSurvivors Eliterows m n)); [reflexivity|].
  intros t s. unfold tournament. rewrite !pick_contenders_start.
  destruct (draw_distinct RAND_MAX rnd fuel Eliterows (m - 1) k 0 [] (spos s))
    as [[cl pos]|] eqn:Hdraw; [|reflexivity].
  apply draw_distinct_spec in Hdraw; auto; try lia; [|constructor].
  destruct Hdraw as (Hlen & _ & _ & Hdraws).
  assert (Hall : forall c, In c cl -> Eliterows <= c < m).
  { intros c Hc. destruct (Hdraws c Hc) as [[]|(q & _ & ->)].
    pose proof (randr_range RAND_MAX HR Eliterows (m - 1) (rnd q)
                  ltac:(lia) ltac:(lia) (Hrnd q)). lia. }
  assert (Hfit : map (load Fzero Fitness) cl = map (load Fzero Fitness') cl).
  { apply map_ext_in. intros c Hc. apply Hagree. now apply Hall. }
  rewrite <- Hfit.
  destruct (judge_some_contender F gtb Fzero Fitness cl k (Winner s) (WinnerIndex s)
              ltac:(lia) Hlen) as (w & Hw & ->).
  assert (Hrange : Eliterows <= load 0 cl w < m).
  { apply Hall. apply load_In. apply in_bounds_iff. lia. }
  rewrite !for_loop_size_t by lia.
  rewrite (iterate_from_ext
             (fun col Sv => store Sv (t + NoSurvivors * col)
                              (load false Population (load 0 cl w + m * col)))
             (fun col Sv => store Sv (t + NoSurvivors * col)
                              (load false Population' (load 0 cl w + m * col))));
    [reflexivity|].
  intros col Sv Hcol. f_equal. apply Hagree; auto. lia.
Qed.

Lemma Select_ignores_elite_rows_witness :
  Select 32767 alternating Z Z.gtb 0 10 2 [1; 9; 5; 2]
    [true; false; true; false; false; true; true; false; true; false; true; false]
    1 1 4 3 0 0 =
  Select 32767 alternating Z Z.gtb 0 10 2 [7; 9; 5; 2]
    [false; false; true; false; true; true; true; false; false; false; true; false]
    1 1 4 3 0 0.
Proof.
  apply Select_ignores_elite_rows;
    try apply alternating_range; try (unfold INT_MAX, SIZE_MOD; lia).
  intros w Hw. assert (H : w = 1 \/ w = 2 \/ w = 3) by lia.
  split.
  - destruct H as [-> | [-> | ->]]; reflexivity.
  - intros col Hcol. assert (Hc : col = 0 \/ col = 1 \/ col = 2) by lia.
    destruct H as [-> | [-> | ->]]; destruct Hc as [-> | [-> | ->]]; reflexivity.
Defined.
